(** * CalTrack: the resilient network client

    A shallow embedding of [src/services/networkClient.ts]: the typed error
    [ResilientFetchError], the options record and the retry loop of
    [resilientFetch], followed by the properties of the loop.

    The function is asynchronous and talks to three collaborators: the
    request issuer [fetch], the caller's [AbortSignal] and the per-attempt
    timer.  What they do is an input of the model: a [World] says how the
    fetch of each attempt settles and whether the timer fired first, and an
    [AbortSignal] says what its [aborted] flag reads at each instant the code
    looks at it.  What the function does to its collaborators is an output:
    the [trace] of issuer invocations, delays, log lines and constructed
    errors.  Counts and status codes are integers ([Z]); the delays, which
    the function multiplies, are JavaScript numbers ([number]). *)

From Stdlib Require Import ZArith List String Bool Lia.
From Stdlib Require Import DecimalString SpecFloat.
Import ListNotations.

Local Open Scope string_scope.
Local Open Scope list_scope.
Local Open Scope Z_scope.

(** ** Data model *)

(** A JavaScript number is an IEEE 754 binary64 value: 53 bits of mantissa,
    infinities at exponent 1024 and one NaN. *)
Definition number : Type := spec_float.

(** [x * y] on numbers: the product, rounded to the nearest number, ties to
    even. *)
Definition times (x y : number) : number := SFmul 53 1024 x y.

(** The number an integer literal denotes. *)
Definition num (z : Z) : number := binary_normalize 53 1024 z 0 false.

(** The number a quotient of integer literals denotes: [ratio 3 2] is
    1.5. *)
Definition ratio (p q : Z) : number := SFdiv 53 1024 (num p) (num q).


Arguments times : simpl never.
Arguments num : simpl never.

(** [type ResilientFetchErrorCode] *)
Inductive ResilientFetchErrorCode : Type :=
| timeout
| aborted
| offline
| network
| server.

(** [class ResilientFetchError extends Error]: [status] is the optional
    constructor argument, [None] when it was left out. *)
Record ResilientFetchError : Type := mkResilientFetchError {
  message : string;
  code : ResilientFetchErrorCode;
  status : option Z
}.



(** The part of a [Response] the function reads. *)
Record Response : Type := mkResponse {
  resp_status : Z
}.

(** [response.ok]: the status is in the range 200-299. *)
Definition ok (response : Response) : bool :=
  (200 <=? resp_status response) && (resp_status response <=? 299).

(** A value caught by the [catch] clause, by the [instanceof] tests the
    clause performs on it. *)
Inductive Thrown : Type :=
| ThrownTypeError (msg : string)
| ThrownResilientFetchError (e : ResilientFetchError)
| ThrownError (msg : string)      (* any other instance of Error *)
| ThrownValue.                    (* a value that is not an Error *)

(** The instants at which the code reads [abortSignal.aborted]: at the top
    of an iteration and when the awaited fetch of that iteration has
    settled. *)
Inductive Instant : Type :=
| AtStart (attempt : Z)
| AtSettle (attempt : Z).

(** A caller-owned [AbortSignal], by what its [aborted] flag reads at each
    instant. *)
Definition AbortSignal : Type := Instant -> bool.

(** [interface ResilientFetchOptions]: every field is optional. *)
Record ResilientFetchOptions : Type := mkOptions {
  opt_timeoutMs : option Z;
  opt_retries : option Z;
  opt_retryDelayMs : option number;
  opt_backoffFactor : option number;
  opt_abortSignal : option AbortSignal;
  opt_retryOnStatuses : option (list Z)
}.

(** How the awaited [fetch] settles. *)
Inductive Settled : Type :=
| Resolves (response : Response)
| Rejects (error : Thrown).

(** What one attempt observes of its collaborators. *)
Record AttemptObs : Type := mkObs {
  settles : Settled;
  timer_fired : bool   (* the timeout callback ran before the await resumed *)
}.

Definition World : Type := Z -> AttemptObs.

(** What the function does to its collaborators. *)
Inductive Event : Type :=
| EvFetch (attempt : Z)               (* fetch(url, ...) during [attempt] *)
| EvDelay (ms : number)               (* await delay(ms) *)
| EvLog (line : string)               (* console.log(line) *)
| EvNew (e : ResilientFetchError).    (* new ResilientFetchError(...) *)

(** The locals the loop assigns. *)
Record LoopState : Type := mkState {
  lastError : option ResilientFetchError;
  currentDelay : number
}.

(** ** The monad of the loop body

    A computation reads and writes the locals, appends to the trace and
    completes normally or abruptly ([continue], [return], [throw]). *)

Inductive Control : Type :=
| Continue
| Return (response : Response)
| Throw (error : Thrown).

Inductive Completion (A : Type) : Type :=
| Normal (a : A)
| Abrupt (c : Control).

Arguments Normal {A} a.
Arguments Abrupt {A} c.

Definition M (A : Type) : Type :=
  LoopState -> list Event * LoopState * Completion A.

Definition ret {A : Type} (a : A) : M A :=
  fun st => ([], st, Normal a).

Definition bind {A B : Type} (m : M A) (k : A -> M B) : M B :=
  fun st =>
    match m st with
    | (evs, st1, Normal a) =>
        match k a st1 with
        | (evs', st2, c) => (evs ++ evs', st2, c)
        end
    | (evs, st1, Abrupt c) => (evs, st1, Abrupt c)
    end.

Declare Scope js_scope.
Delimit Scope js_scope with js.
Notation "x <- c ;; k" := (bind c (fun x => k))
  (at level 61, c at next level, right associativity) : js_scope.
Notation "c ;; k" := (bind c (fun _ => k))
  (at level 61, right associativity) : js_scope.
Local Open Scope js_scope.

Definition emit (e : Event) : M unit :=
  fun st => ([e], st, Normal tt).

Definition abrupt {A : Type} (c : Control) : M A :=
  fun st => ([], st, Abrupt c).

Definition throw {A : Type} (error : Thrown) : M A := abrupt (Throw error).
Definition continue {A : Type} : M A := abrupt Continue.
Definition return_ {A : Type} (response : Response) : M A :=
  abrupt (Return response).

Definition try_catch {A : Type} (body : M A) (handler : Thrown -> M A) : M A :=
  fun st =>
    match body st with
    | (evs, st1, Abrupt (Throw error)) =>
        match handler error st1 with
        | (evs', st2, c) => (evs ++ evs', st2, c)
        end
    | r => r
    end.

Definition get_lastError : M (option ResilientFetchError) :=
  fun st => ([], st, Normal (lastError st)).

Definition set_lastError (e : ResilientFetchError) : M unit :=
  fun st => ([], mkState (Some e) (currentDelay st), Normal tt).

Definition get_currentDelay : M number :=
  fun st => ([], st, Normal (currentDelay st)).

Definition set_currentDelay (ms : number) : M unit :=
  fun st => ([], mkState (lastError st) ms, Normal tt).

(** [new ResilientFetchError(message, code, status)] *)
Definition new_ResilientFetchError
    (msg : string) (c : ResilientFetchErrorCode) (st : option Z)
    : M ResilientFetchError :=
  let e := mkResilientFetchError msg c st in
  emit (EvNew e) ;; ret e.

Definition delay (ms : number) : M unit := emit (EvDelay ms).
Definition console_log (line : string) : M unit := emit (EvLog line).

(** Template-literal rendering of an integer. *)
Definition show (n : Z) : string := NilZero.string_of_int (Z.to_int n).

(** [abortSignal?.aborted] read at [i]. *)
Definition signal_aborted (abortSignal : option AbortSignal) (i : Instant)
    : bool :=
  match abortSignal with
  | Some s => s i
  | None => false
  end.

Definition with_default {A : Type} (o : option A) (d : A) : A :=
  match o with
  | Some a => a
  | None => d
  end.

(** How the loop is left. *)
Inductive LoopExit : Type :=
| Completed (st : LoopState)     (* the loop condition became false *)
| Returned (response : Response)
| Threw (error : Thrown).

(** The outcome of a call: the promise is fulfilled with a response or
    rejected with a thrown value. *)
Inductive Outcome : Type :=
| Fulfilled (response : Response)
| Rejected (error : Thrown).

Record Run : Type := mkRun {
  trace : list Event;
  outcome : Outcome
}.

(** ** [resilientFetch] *)

Section ResilientFetch.

Variable options : ResilientFetchOptions.
Variable world : World.

(** The destructuring of [options], with its defaults. *)
Definition timeoutMs : Z := with_default (opt_timeoutMs options) 30000.
Definition retries : Z := with_default (opt_retries options) 2.
Definition retryDelayMs : number :=
  with_default (opt_retryDelayMs options) (num 1500).
Definition backoffFactor : number :=
  with_default (opt_backoffFactor options) (num 2).
Definition abortSignal : option AbortSignal := opt_abortSignal options.
Definition retryOnStatuses : list Z :=
  with_default (opt_retryOnStatuses options) [408; 429; 500; 502; 503; 504].

Definition maxAttempts : Z := retries + 1.

(** [await fetch(url, { ...fetchOptions, signal: controller.signal })] *)
Definition fetch (attempt : Z) : M Response :=
  emit (EvFetch attempt) ;;
  match settles (world attempt) with
  | Resolves response => ret response
  | Rejects error => throw error
  end.

(** [controller.signal.aborted] when the await has resumed: the timer
    callback aborted the controller, or the listener linked to the
    caller's signal did. *)
Definition controller_aborted (attempt : Z) : bool :=
  timer_fired (world attempt) || signal_aborted abortSignal (AtSettle attempt).

(** The three retry paths share their last four statements. *)
Definition backoff_and_continue {A : Type} (line : string) : M A :=
  console_log line ;;
  ms <- get_currentDelay ;;
  delay ms ;;
  set_currentDelay (times ms backoffFactor) ;;
  continue.

Definition retry_line (attempt : Z) (cause : string) : string :=
  "[NetworkClient] Retry " ++ show attempt ++ "/" ++ show retries
    ++ " after " ++ cause.

(** [throw lastError] *)
Definition throw_lastError {A : Type} : M A :=
  le <- get_lastError ;;
  match le with
  | Some e => throw (ThrownResilientFetchError e)
  | None => throw ThrownValue
  end.

(** The [try] block of one iteration. *)
Definition try_block (attempt : Z) : M unit :=
  response <- fetch attempt ;;
  (* clearTimeout(timeoutId) *)
  if ok response then return_ response
  else
    (if existsb (Z.eqb (resp_status response)) retryOnStatuses then
       e <- new_ResilientFetchError
              ("HTTP error " ++ show (resp_status response))
              server (Some (resp_status response)) ;;
       set_lastError e ;;
       if attempt <? maxAttempts then
         backoff_and_continue
           (retry_line attempt (show (resp_status response)))
       else ret tt
     else ret tt) ;;
    e <- new_ResilientFetchError
           ("HTTP error " ++ show (resp_status response))
           server (Some (resp_status response)) ;;
    throw (ThrownResilientFetchError e).

(** The [catch (error)] clause of one iteration. *)
Definition catch_block (attempt : Z) (error : Thrown) : M unit :=
  (* if (timeoutId) clearTimeout(timeoutId) *)
  if signal_aborted abortSignal (AtSettle attempt) then
    e <- new_ResilientFetchError "Request was aborted" aborted None ;;
    throw (ThrownResilientFetchError e)
  else if controller_aborted attempt then
    e <- new_ResilientFetchError "Request timed out" timeout None ;;
    set_lastError e ;;
    if attempt <? maxAttempts then
      backoff_and_continue (retry_line attempt "timeout")
    else throw_lastError
  else
    match error with
    | ThrownTypeError _ =>
        e <- new_ResilientFetchError "Network request failed" network None ;;
        set_lastError e ;;
        if attempt <? maxAttempts then
          backoff_and_continue (retry_line attempt "network error")
        else throw_lastError
    | ThrownResilientFetchError e => throw (ThrownResilientFetchError e)
    | ThrownError msg =>
        e <- new_ResilientFetchError msg network None ;;
        throw (ThrownResilientFetchError e)
    | ThrownValue =>
        e <- new_ResilientFetchError "Unknown network error" network None ;;
        throw (ThrownResilientFetchError e)
    end.

(** The body of the [for] loop. *)
Definition iteration (attempt : Z) : M unit :=
  (* const controller = new AbortController() *)
  (match abortSignal with
   | Some s =>
       if s (AtStart attempt) then
         e <- new_ResilientFetchError "Request was aborted" aborted None ;;
         throw (ThrownResilientFetchError e)
       else ret tt (* abortSignal.addEventListener('abort', ...) *)
   | None => ret tt
   end) ;;
  (* timeoutId = setTimeout(() => controller.abort(), timeoutMs) *)
  try_catch (try_block attempt) (catch_block attempt).

(** [for (let attempt = 1; attempt <= maxAttempts; attempt++)], from the
    test of its condition at [attempt]; [fuel] bounds the iterations. *)
Fixpoint for_loop (fuel : nat) (attempt : Z) (st : LoopState)
    : option (list Event * LoopExit) :=
  match fuel with
  | O => None
  | S fuel' =>
      if attempt <=? maxAttempts then
        match iteration attempt st with
        | (evs, _, Abrupt (Return response)) => Some (evs, Returned response)
        | (evs, _, Abrupt (Throw error)) => Some (evs, Threw error)
        | (evs, st1, _) =>
            match for_loop fuel' (attempt + 1) st1 with
            | Some (evs', x) => Some (evs ++ evs', x)
            | None => None
            end
        end
      else Some ([], Completed st)
  end.

(** The runs of the loop from the test of its condition at [a], as a
    relation over the iterations. *)
Inductive loop_run : Z -> LoopState -> list Event -> LoopExit -> Prop :=
| run_completed a st :
    maxAttempts < a ->
    loop_run a st [] (Completed st)
| run_continue a st evs0 st1 evs x :
    a <= maxAttempts ->
    iteration a st = (evs0, st1, Abrupt Continue) ->
    loop_run (a + 1) st1 evs x ->
    loop_run a st (evs0 ++ evs) x
| run_return a st evs0 st1 r :
    a <= maxAttempts ->
    iteration a st = (evs0, st1, Abrupt (Return r)) ->
    loop_run a st evs0 (Returned r)
| run_throw a st evs0 st1 t :
    a <= maxAttempts ->
    iteration a st = (evs0, st1, Abrupt (Throw t)) ->
    loop_run a st evs0 (Threw t).

Definition initial_state : LoopState := mkState None retryDelayMs.

(** The loop, run with one unit of fuel per possible iteration and one for
    the final test of the condition. *)
Definition run_loop : option (list Event * LoopExit) :=
  for_loop (S (Z.to_nat maxAttempts)) 1 initial_state.

(** [throw lastError || new ResilientFetchError('Request failed', 'network')] *)
Definition after_loop : M unit :=
  le <- get_lastError ;;
  match le with
  | Some e => throw (ThrownResilientFetchError e)
  | None =>
      e <- new_ResilientFetchError "Request failed" network None ;;
      throw (ThrownResilientFetchError e)
  end.

Definition resilientFetch : option Run :=
  match run_loop with
  | None => None
  | Some (evs, Returned response) => Some (mkRun evs (Fulfilled response))
  | Some (evs, Threw error) => Some (mkRun evs (Rejected error))
  | Some (evs, Completed st) =>
      match after_loop st with
      | (evs', _, Abrupt (Throw error)) =>
          Some (mkRun (evs ++ evs') (Rejected error))
      | _ => None
      end
  end.

End ResilientFetch.

(** ** Reading a trace *)

Definition is_fetch (ev : Event) : bool :=
  match ev with
  | EvFetch _ => true
  | _ => false
  end.

(** How many times the request issuer was invoked. *)
Definition fetch_count (tr : list Event) : nat :=
  List.length (filter is_fetch tr).

Definition is_delay (ev : Event) : bool :=
  match ev with
  | EvDelay _ => true
  | _ => false
  end.

(** The attempts and the waits of a trace, in order. *)
Definition schedule (tr : list Event) : list Event :=
  filter (fun ev => is_fetch ev || is_delay ev) tr.

(** Whether the request of attempt [k] was issued. *)
Definition issued (k : Z) (tr : list Event) : bool :=
  existsb (fun ev => match ev with
                     | EvFetch a => a =? k
                     | _ => false
                     end) tr.

(** The delays waited between the request of attempt [k] and the request
    before it, in order ([waited] so far); nothing when the request of
    attempt [k] is not in the trace. *)
Fixpoint waits_before_from (waited : list number) (k : Z) (tr : list Event)
    : option (list number) :=
  match tr with
  | [] => None
  | EvFetch a :: tr' =>
      if a =? k then Some waited else waits_before_from [] k tr'
  | EvDelay ms :: tr' => waits_before_from (waited ++ [ms]) k tr'
  | _ :: tr' => waits_before_from waited k tr'
  end.

Definition waits_before (k : Z) (tr : list Event) : option (list number) :=
  waits_before_from [] k tr.

(** The delay [d] after [n] retries: multiplied by the factor [f] after
    each. *)
Fixpoint grow (n : nat) (d f : number) : number :=
  match n with
  | O => d
  | S n' => times (grow n' d f) f
  end.

Definition grown (d f : number) (n : Z) : number := grow (Z.to_nat n) d f.

(** The outcome a loop exit gives the call. *)
Definition exit_outcome (x : LoopExit) (oc : Outcome) : Prop :=
  match x with
  | Returned r => oc = Fulfilled r
  | Threw t => oc = Rejected t
  | Completed _ => False
  end.

(** Whether a call issues the request of attempt [k]. *)
Definition attempt_issued (o : ResilientFetchOptions) (w : World) (k : Z)
    : bool :=
  match resilientFetch o w with
  | Some run => issued k (trace run)
  | None => false
  end.

(** The schedule of [n] retries after attempt [a]: a request, then [n] times
    a wait and a request, the wait growing by the factor [f]. *)
Fixpoint backoff_schedule (n : nat) (a : Z) (d f : number) : list Event :=
  match n with
  | O => [EvFetch a]
  | S n' =>
      EvFetch a :: EvDelay d :: backoff_schedule n' (a + 1) (times d f) f
  end.

(** The requests of [n] consecutive attempts, from attempt [a]. *)
Fixpoint attempts_from (a : Z) (n : nat) : list Event :=
  match n with
  | O => []
  | S n' => EvFetch a :: attempts_from (a + 1) n'
  end.

(** The errors the function constructs. *)
Definition aborted_error : ResilientFetchError :=
  mkResilientFetchError "Request was aborted" aborted None.

Definition timeout_error : ResilientFetchError :=
  mkResilientFetchError "Request timed out" timeout None.

Definition network_error : ResilientFetchError :=
  mkResilientFetchError "Network request failed" network None.

Definition server_error (response : Response) : ResilientFetchError :=
  mkResilientFetchError ("HTTP error " ++ show (resp_status response))
    server (Some (resp_status response)).

Definition request_failed : ResilientFetchError :=
  mkResilientFetchError "Request failed" network None.

(** The iteration entered after the retry of attempt [k], of which [post]
    are the events: it throws 'aborted' when the caller's signal reads
    aborted at its top, and issues the next request otherwise. *)
Definition next_iteration (o : ResilientFetchOptions) (k : Z) (run : Run)
    (post : list Event) : Prop :=
  if signal_aborted (abortSignal o) (AtStart (k + 1))
  then post = [EvNew aborted_error] /\
       outcome run = Rejected (ThrownResilientFetchError aborted_error)
  else exists post', post = EvFetch (k + 1) :: post'.

(** An error a call may construct during attempt [a]: never [offline], and
    with a status exactly when it is a [server] error, the status of the
    response of that attempt, which is not ok. *)
Definition built_in (w : World) (a : Z) (e : ResilientFetchError) : Prop :=
  code e <> offline /\
  match status e with
  | Some s => code e = server /\
              exists r, settles (w a) = Resolves r /\ resp_status r = s /\
                        ok r = false
  | None => code e <> server
  end.




(** An error constructed during a run has no [offline] code, and a status
    exactly when it is a [server] error: the status of the response an
    issued attempt received. *)
Definition constructed_ok (w : World) (tr : list Event)
    (e : ResilientFetchError) : Prop :=
  code e <> offline /\
  match status e with
  | Some s => code e = server /\
              exists k r, issued k tr = true /\
                settles (w k) = Resolves r /\ resp_status r = s
  | None => code e <> server
  end.

(** A signal that, once aborted, stays aborted: the instants are ordered as
    the loop meets them. *)
Definition instant_index (i : Instant) : Z :=
  match i with
  | AtStart a => 2 * a
  | AtSettle a => 2 * a + 1
  end.

Definition monotone (s : AbortSignal) : Prop :=
  forall i j, instant_index i <= instant_index j -> s i = true -> s j = true.

(** ** Scenarios *)

Definition default_options : ResilientFetchOptions :=
  mkOptions None None None None None None.

Definition with_signal (s : AbortSignal) : ResilientFetchOptions :=
  mkOptions None None None None (Some s) None.

(** A signal aborted before the call. *)
Definition already_aborted : AbortSignal := fun _ => true.

(** A signal aborted while the first request is in flight. *)
Definition aborted_mid_first : AbortSignal :=
  fun i => negb (instant_index i <=? 2).

(** A signal aborted while the second request is in flight. *)
Definition aborted_mid_second : AbortSignal :=
  fun i => negb (instant_index i <=? 4).

Definition always (s : Settled) : World := fun _ => mkObs s false.

(** The issuer answers 503 twice, then 200. *)
Definition busy_twice : World :=
  fun k => mkObs (Resolves (mkResponse (if k <=? 2 then 503 else 200))) false.

(** ** The callers: [src/services/networkStatus.ts] and
    [src/services/geminiService.ts]

    These functions await their collaborators and may throw: a computation
    yields the events it caused and a value or a thrown value, and nothing
    when the loop of [resilientFetch] has no fuel left. *)

Inductive Logged : Type :=
| LoggedText (s : string)
| LoggedThrown (error : Thrown).

Inductive ServiceEvent : Type :=
| SvNet (ev : Event)                         (* an event of resilientFetch *)
| SvProbe                                    (* Network.getNetworkStateAsync() *)
| SvJson                                     (* response.json() *)
| SvText                                     (* response.text() *)
| SvWarn (label : string) (what : option Logged)     (* console.warn *)
| SvError (label : string) (what : option Logged).   (* console.error *)

Inductive Result (A : Type) : Type :=
| Value (a : A)
| Raise (error : Thrown).

Arguments Value {A} a.
Arguments Raise {A} error.

Definition Svc (A : Type) : Type := option (list ServiceEvent * Result A).

Definition svc_ret {A : Type} (a : A) : Svc A := Some ([], Value a).

Definition svc_bind {A B : Type} (m : Svc A) (k : A -> Svc B) : Svc B :=
  match m with
  | None => None
  | Some (evs, Value a) =>
      match k a with
      | None => None
      | Some (evs', r) => Some (evs ++ evs', r)
      end
  | Some (evs, Raise error) => Some (evs, Raise error)
  end.

Definition svc_throw {A : Type} (error : Thrown) : Svc A :=
  Some ([], Raise error).

Definition svc_emit (ev : ServiceEvent) : Svc unit := Some ([ev], Value tt).

Definition svc_try_catch {A : Type} (body : Svc A) (handler : Thrown -> Svc A)
    : Svc A :=
  match body with
  | Some (evs, Raise error) =>
      match handler error with
      | None => None
      | Some (evs', r) => Some (evs ++ evs', r)
      end
  | r => r
  end.

(** What an awaited promise of a collaborator settles with. *)
Definition svc_await {A : Type} (ev : ServiceEvent) (settled : Result A)
    : Svc A :=
  Some ([ev], settled).

Declare Scope svc_scope.
Delimit Scope svc_scope with svc.
Notation "x <- c ;; k" := (svc_bind c (fun x => k))
  (at level 61, c at next level, right associativity) : svc_scope.
Notation "c ;; k" := (svc_bind c (fun _ => k))
  (at level 61, right associativity) : svc_scope.
Local Open Scope svc_scope.

(** The network events of a service trace. *)
Fixpoint net_events (tr : list ServiceEvent) : list Event :=
  match tr with
  | [] => []
  | SvNet ev :: tr' => ev :: net_events tr'
  | _ :: tr' => net_events tr'
  end.

(** *** [networkStatus.ts] *)

Section NetworkStatus.

(** [Network.NetworkStateType] of expo-network, and its member [UNKNOWN]. *)
Variable NetworkStateType : Type.
Variable UNKNOWN : NetworkStateType.

(** What [Network.getNetworkStateAsync()] resolves with: each field may be
    missing. *)
Record ProbedState : Type := mkProbed {
  probed_isConnected : option bool;
  probed_isInternetReachable : option bool;
  probed_type : option NetworkStateType
}.

(** [interface NetworkState] *)
Record NetworkState : Type := mkNetworkState {
  isConnected : bool;
  isInternetReachable : bool;
  net_type : NetworkStateType
}.

Definition getCurrentNetworkState (probe : Result ProbedState)
    : Svc NetworkState :=
  svc_try_catch
    (state <- svc_await SvProbe probe ;;
     svc_ret (mkNetworkState
                (with_default (probed_isConnected state) false)
                (with_default (probed_isInternetReachable state) false)
                (with_default (probed_type state) UNKNOWN)))
    (fun error =>
       svc_emit (SvWarn "[NetworkStatus] Failed to get network state:"
                   (Some (LoggedThrown error))) ;;
       (* Assume connected if we can't check *)
       svc_ret (mkNetworkState true true UNKNOWN)).

Definition isNetworkSuitableForUpload (probe : Result ProbedState)
    : Svc bool :=
  state <- getCurrentNetworkState probe ;;
  svc_ret (isConnected state && isInternetReachable state).

End NetworkStatus.

Arguments mkProbed {NetworkStateType} _ _ _.
Arguments probed_isConnected {NetworkStateType} p.
Arguments probed_isInternetReachable {NetworkStateType} p.
Arguments probed_type {NetworkStateType} p.
Arguments mkNetworkState {NetworkStateType} _ _ _.
Arguments isConnected {NetworkStateType} n.
Arguments isInternetReachable {NetworkStateType} n.
Arguments net_type {NetworkStateType} n.
Arguments getCurrentNetworkState {NetworkStateType} UNKNOWN probe.
Arguments isNetworkSuitableForUpload {NetworkStateType} UNKNOWN probe.

(** *** [geminiService.ts] *)

(** The keys imported from ['@env']: a key that is not set is missing. *)
Record Env : Type := mkEnv {
  EXPO_PUBLIC_PORTKEY_API_KEY : option string;
  PORTKEY_API_KEY : option string
}.

(** Truthiness of a string that may be missing. *)
Definition truthy_string (s : option string) : bool :=
  match s with
  | Some s => negb (s =? "")%string
  | None => false
  end.

(** [EXPO_PUBLIC_PORTKEY_API_KEY || PORTKEY_API_KEY || ''] *)
Definition api_key_of (env : Env) : string :=
  let first :=
    if truthy_string (EXPO_PUBLIC_PORTKEY_API_KEY env)
    then EXPO_PUBLIC_PORTKEY_API_KEY env
    else PORTKEY_API_KEY env in
  if truthy_string first then with_default first "" else "".

(** The warning of [getApiKey]. *)
Definition key_warning : ServiceEvent :=
  SvWarn "PORTKEY_API_KEY not found. Set EXPO_PUBLIC_PORTKEY_API_KEY in .env or EAS secrets."
    None.

Definition getApiKey (env : Env) : Svc string :=
  let apiKey := api_key_of env in
  (if (apiKey =? "")%string then svc_emit key_warning else svc_ret tt) ;;
  svc_ret apiKey.

(** The resilience options [makePortkeyRequest] passes. *)
Definition portkey_options (signal : option AbortSignal)
    : ResilientFetchOptions :=
  mkOptions (Some 30000) (Some 2) (Some (num 1500)) (Some (num 2)) signal
    None.

(** [await resilientFetch(url, options)] *)
Definition await_resilientFetch (o : ResilientFetchOptions) (w : World)
    : Svc Response :=
  match resilientFetch o w with
  | Some run =>
      Some (map SvNet (trace run),
            match outcome run with
            | Fulfilled response => Value response
            | Rejected error => Raise error
            end)
  | None => None
  end.

(** [${error.status}] *)
Definition show_status (s : option Z) : string :=
  match s with
  | Some n => show n
  | None => "undefined"
  end.

(** The messages of the user-facing errors. *)
Definition taking_too_long : string :=
  "The analysis is taking too long. Please check your connection and try again.".

Definition check_connection : string :=
  "Network error. Please check your internet connection and try again.".

Definition try_again_later (s : option Z) : string :=
  "Server error (" ++ show_status s ++ "). Please try again later.".

Definition key_not_configured : string :=
  "Portkey API key is not configured. Please set PORTKEY_API_KEY in your .env file.".

(** What the [catch] clause around the call of [resilientFetch] throws for
    the error it caught: a [ResilientFetchError] becomes a user-facing
    [Error], except 'aborted', which is thrown again; the [switch] has a case
    for every code. Anything else is thrown again. *)
Definition user_error (error : Thrown) : Thrown :=
  match error with
  | ThrownResilientFetchError e =>
      match code e with
      | timeout => ThrownError taking_too_long
      | aborted => error
      | offline | network => ThrownError check_connection
      | server => ThrownError (try_again_later (status e))
      end
  | _ => error
  end.

Definition map_fetch_error {A : Type} (error : Thrown) : Svc A :=
  svc_throw (user_error error).

(** The message an analysis shows for a [ResilientFetchError] of the
    network client. *)
Definition user_message (e : ResilientFetchError) : string :=
  match code e with
  | aborted => "Analysis cancelled"
  | timeout => taking_too_long
  | offline | network => check_connection
  | server => try_again_later (status e)
  end.

(** [error instanceof Error ? error.message : fallback] *)
Definition message_or (fallback : string) (error : Thrown) : string :=
  match error with
  | ThrownTypeError msg => msg
  | ThrownResilientFetchError e => message e
  | ThrownError msg => msg
  | ThrownValue => fallback
  end.

(** [error instanceof ResilientFetchError && error.code === 'aborted'] *)
Definition is_aborted (error : Thrown) : bool :=
  match error with
  | ThrownResilientFetchError e =>
      match code e with
      | aborted => true
      | _ => false
      end
  | _ => false
  end.

(** [s.includes(sub)] *)
Definition includes (sub s : string) : bool :=
  match String.index 0 sub s with
  | Some _ => true
  | None => false
  end.

(** [interface FoodItem] and [interface AnalysisResult], as the object
    literals of the service fill them. *)
Record FoodItem : Type := mkFoodItem {
  name : string;
  portion : string;
  calories : Z
}.

Record AnalysisResult : Type := mkAnalysisResult {
  success : bool;
  error : option string;
  items : list FoodItem;
  totalCalories : Z
}.

(** [{ success: false, error: msg, items: [], totalCalories: 0 }] *)
Definition failure (msg : string) : AnalysisResult :=
  mkAnalysisResult false (Some msg) [] 0.

Section Service.

(** JSON numbers, with their truthiness (neither zero nor NaN) and their
    rendering as a string. *)
Variable Num : Type.
Variable num_truthy : Num -> bool.
Variable num_show : Num -> string.

(** The message of the engine's TypeError for reading property [key] of
    [null]. *)
Variable null_read_error : string -> string.

(** A value [JSON.parse] produces; an object is its own properties, each key
    once. *)
#[warnings="-register-all"]
Inductive Json : Type :=
| JNull
| JBool (b : bool)
| JNumber (n : Num)
| JString (s : string)
| JArray (elems : list Json)
| JObject (props : list (string * Json)).

Fixpoint lookup (key : string) (props : list (string * Json)) : option Json :=
  match props with
  | [] => None
  | (k, v) :: props' => if (k =? key)%string then Some v else lookup key props'
  end.

(** [v.key] for a value that is not null, [None] for undefined; the keys
    the service reads are no properties of the built-in prototypes. *)
Definition property (key : string) (v : Json) : option Json :=
  match v with
  | JObject props => lookup key props
  | _ => None
  end.

(** [v[0]] for a value that is not null. *)
Definition first_element (v : Json) : option Json :=
  match v with
  | JArray (x :: _) => Some x
  | JObject props => lookup "0" props
  | JString (String c _) => Some (JString (String c EmptyString))
  | _ => None
  end.

(** [v?.f]: undefined when [v] is null or undefined. *)
Definition optional (v : option Json) (f : Json -> option Json)
    : option Json :=
  match v with
  | None | Some JNull => None
  | Some x => f x
  end.

Definition truthy (v : Json) : bool :=
  match v with
  | JNull => false
  | JBool b => b
  | JNumber n => num_truthy n
  | JString s => negb (s =? "")%string
  | JArray _ | JObject _ => true
  end.

(** [String(v)]; an array is its elements joined by commas, null elements
    left empty. *)
Fixpoint to_string (v : Json) : string :=
  match v with
  | JNull => "null"
  | JBool true => "true"
  | JBool false => "false"
  | JNumber n => num_show n
  | JString s => s
  | JArray elems =>
      (fix join (l : list Json) : string :=
         match l with
         | [] => ""
         | x :: rest =>
             (match x with
              | JNull => ""
              | _ => to_string x
              end
              ++ match rest with
                 | [] => ""
                 | _ => "," ++ join rest
                 end)%string
         end) elems
  | JObject _ => "[object Object]"
  end.

(** [elems.join('')] *)
Fixpoint join_empty (elems : list Json) : string :=
  match elems with
  | [] => ""
  | x :: rest =>
      (match x with
       | JNull => ""
       | _ => to_string x
       end ++ join_empty rest)%string
  end.

(** [typeof part === 'string' ? part : part.text || ''] *)
Definition part_text (part : Json) : Result Json :=
  match part with
  | JString s => Value (JString s)
  | JNull => Raise (ThrownTypeError (null_read_error "text"))
  | _ =>
      match property "text" part with
      | Some v => if truthy v then Value v else Value (JString "")
      | None => Value (JString "")
      end
  end.

(** [parts.map(...)]: the first part that throws ends the mapping. *)
Fixpoint map_parts (parts : list Json) : Result (list Json) :=
  match parts with
  | [] => Value []
  | part :: rest =>
      match part_text part with
      | Raise error => Raise error
      | Value v =>
          match map_parts rest with
          | Raise error => Raise error
          | Value vs => Value (v :: vs)
          end
      end
  end.

(** A part that carries the text [s]: the string itself, or an object
    whose [text] is that string. *)
Inductive text_part : Json -> string -> Prop :=
| text_part_string s : text_part (JString s) s
| text_part_object props s :
    lookup "text" props = Some (JString s) ->
    text_part (JObject props) s.

(** A content that says [s]: the string itself, or an array of parts that
    carry texts whose concatenation, in order, is [s]. *)
Definition content_says (content : Json) (s : string) : Prop :=
  content = JString s \/
  exists parts texts,
    content = JArray parts /\
    Forall2 text_part parts texts /\
    s = fold_right String.append "" texts.

(** [data.choices?.[0]?.message?.content] *)
Definition raw_content (data : Json) : Result (option Json) :=
  match data with
  | JNull => Raise (ThrownTypeError (null_read_error "choices"))
  | _ =>
      Value (optional
               (optional
                  (optional (property "choices" data) first_element)
                  (property "message"))
               (property "content"))
  end.

(** The text the service returns for [rawContent]: [None] is null. *)
Definition content_text (rawContent : option Json) : Result (option string) :=
  match rawContent with
  | Some (JString s) => Value (Some s)
  | Some (JArray parts) =>
      match map_parts parts with
      | Raise error => Raise error
      | Value vs => Value (Some (join_empty vs))
      end
  | _ => Value None
  end.

(** What reading the body of the returned response gives. *)
Record Body : Type := mkBody {
  body_json : Result Json;      (* await response.json() *)
  body_text : Result string     (* await response.text() *)
}.

Definition of_result {A : Type} (r : Result A) : Svc A := Some ([], r).

(** The text of a parsed body: lines 193-205 of [makePortkeyRequest]. *)
Definition text_of_data (data : Json) : Result (option string) :=
  match raw_content data with
  | Raise error => Raise error
  | Value rawContent => content_text rawContent
  end.

(** What the body of the returned response gives the service. *)
Definition text_of_body (body : Body) : Result (option string) :=
  match body_json body with
  | Raise error => Raise error
  | Value data => text_of_data data
  end.

(** [makePortkeyRequest(messages, options)]; the request body it builds
    reaches only the issuer. *)
Definition makePortkeyRequest (env : Env) (signal : option AbortSignal)
    (w : World) (body : Body) : Svc (option string) :=
  apiKey <- getApiKey env ;;
  (if (apiKey =? "")%string then
     svc_throw (ThrownError key_not_configured)
   else svc_ret tt) ;;
  response <- svc_try_catch
                (await_resilientFetch (portkey_options signal) w)
                map_fetch_error ;;
  (if negb (ok response) then
     errorText <- svc_await SvText (body_text body) ;;
     svc_throw (ThrownError ("Portkey API error: "
                             ++ show (resp_status response) ++ " - "
                             ++ errorText))
   else svc_ret tt) ;;
  data <- svc_await SvJson (body_json body) ;;
  rawContent <- of_result (raw_content data) ;;
  of_result (content_text rawContent).

(** What [parseJsonResponse] returns for a text, [None] when it throws; its
    parsing of JSON text is outside this model. *)
Variable Parsed : Type.
Variable parseJsonResponse : string -> option Parsed.

(** What an analysis resolves with: the value [parseJsonResponse] returned,
    or an object literal of the service. *)
Inductive Analysis : Type :=
| FromResponse (r : Parsed)
| Built (res : AnalysisResult).

(** [analyzeFood] and [analyzeFoodFromText] differ in the messages they send
    and in the label of their error log. *)
Definition analyze (label : string) (env : Env) (signal : option AbortSignal)
    (w : World) (body : Body) : Svc Analysis :=
  svc_try_catch
    (textContent <- makePortkeyRequest env signal w body ;;
     if truthy_string textContent then
       let text := with_default textContent "" in
       match parseJsonResponse text with
       | Some r => svc_ret (FromResponse r)
       | None =>
           svc_emit (SvError "JSON parsing failed:" (Some (LoggedText text))) ;;
           svc_ret (Built (failure "Failed to parse AI response"))
       end
     else svc_ret (Built (failure "No response received from AI")))
    (fun error =>
       if is_aborted error then
         svc_ret (Built (failure "Analysis cancelled"))
       else
         svc_emit (SvError label (Some (LoggedThrown error))) ;;
         svc_ret (Built (failure (message_or "Unknown error occurred" error)))).

Definition analyzeFood : Env -> option AbortSignal -> World -> Body
                         -> Svc Analysis :=
  analyze "Portkey API error:".

Definition analyzeFoodFromText : Env -> option AbortSignal -> World -> Body
                                 -> Svc Analysis :=
  analyze "Portkey text analysis error:".

Definition testConnection (env : Env) (w : World) (body : Body) : Svc bool :=
  svc_try_catch
    (response <- makePortkeyRequest env None w body ;;
     svc_ret (match response with
              | Some s => includes "connected" s
              | None => false
              end))
    (fun error =>
       svc_emit (SvError "Connection test failed:" (Some (LoggedThrown error))) ;;
       svc_ret false).

End Service.

Arguments JNull {Num}.
Arguments JBool {Num} b.
Arguments JNumber {Num} n.
Arguments JString {Num} s.
Arguments JArray {Num} elems.
Arguments JObject {Num} props.
Arguments lookup {Num} key props.
Arguments property {Num} key v.
Arguments first_element {Num} v.
Arguments optional {Num} v f.
Arguments truthy {Num} num_truthy v.
Arguments to_string {Num} num_show v.
Arguments join_empty {Num} num_show elems.
Arguments part_text {Num} num_truthy null_read_error part.
Arguments map_parts {Num} num_truthy null_read_error parts.
Arguments raw_content {Num} null_read_error data.
Arguments text_part {Num} _ _.
Arguments content_says {Num} content s.
Arguments content_text {Num} num_truthy num_show null_read_error rawContent.
Arguments text_of_data {Num} num_truthy num_show null_read_error data.
Arguments mkBody {Num} body_json body_text.
Arguments body_json {Num} b.
Arguments body_text {Num} b.
Arguments text_of_body {Num} num_truthy num_show null_read_error body.
Arguments makePortkeyRequest {Num} num_truthy num_show null_read_error
  env signal w body.
Arguments FromResponse {Parsed} r.
Arguments Built {Parsed} res.
Arguments analyze {Num} num_truthy num_show null_read_error
  {Parsed} parseJsonResponse label env signal w body.
Arguments analyzeFood {Num} num_truthy num_show null_read_error
  {Parsed} parseJsonResponse _ _ _ _.
Arguments analyzeFoodFromText {Num} num_truthy num_show null_read_error
  {Parsed} parseJsonResponse _ _ _ _.
Arguments testConnection {Num} num_truthy num_show null_read_error
  env w body.

Local Close Scope svc_scope.

(** *** Scenarios of the service *)

Definition configured_env : Env := mkEnv None (Some "pk-test").

Definition unconfigured_env : Env := mkEnv (Some "") None.

Definition nonzero (n : Z) : bool := negb (n =? 0).

Definition null_read (key : string) : string :=
  "Cannot read property '" ++ key ++ "' of null".

(** A parser that accepts every text, as itself. *)
Definition accept_text (text : string) : option string := Some text.

Definition reply_with (content : Json Z) : Json Z :=
  JObject [("choices",
            JArray [JObject [("message", JObject [("content", content)])]])].

(** A content in two parts: a text object and a bare string. *)
Definition two_parts : Json Z :=
  JArray [JObject [("type", JString "text"); ("text", JString "[1,")];
          JString "2]"].

Definition no_choices : Json Z := JObject [("choices", JArray [])].

Definition body_of (data : Json Z) : Body Z :=
  mkBody (Value data) (Value "").

(** * Properties *)

(** ** JavaScript numbers

    The integers below 2^53 are numbers, and a product of two of them that
    is below 2^53 is computed exactly. *)













Lemma grow_head n : forall d f, grow (S n) d f = grow n (times d f) f.
Proof.
  induction n as [|n IH]; intros d f; [reflexivity|].
  cbn [grow] in *. now rewrite IH.
Qed.



Lemma grown_0 d f : grown d f 0 = d.
Proof. reflexivity. Qed.

Lemma grown_next d f n :
  0 <= n -> grown d f (n + 1) = times (grown d f n) f.
Proof.
  intros Hn. unfold grown.
  replace (Z.to_nat (n + 1)) with (S (Z.to_nat n)) by lia. reflexivity.
Qed.

Lemma grown_head d f n :
  0 <= n -> grown d f (n + 1) = grown (times d f) f n.
Proof.
  intros Hn. unfold grown.
  replace (Z.to_nat (n + 1)) with (S (Z.to_nat n)) by lia. apply grow_head.
Qed.

(** ** Two runs

    The issuer answers 503, 503, 200 with [retryOnStatuses = [503]]: the 200
    response is returned after three requests and waits of 1500 and 3000.
    With one retry and a transport failure at every attempt the call fails
    with the network error after two requests. *)

Example busy_twice_run :
  exists tr,
    resilientFetch (mkOptions None None None None None (Some [503])) busy_twice
      = Some (mkRun tr (Fulfilled (mkResponse 200))) /\
    schedule tr
      = [EvFetch 1; EvDelay (num 1500); EvFetch 2; EvDelay (num 3000);
         EvFetch 3].
Proof. eexists. split; reflexivity. Qed.

(** With [retryDelayMs = 1000] and [backoffFactor = 1.5] the waits are 1000
    and 1500; with the factor 0.1 the second wait is 100, the product of
    1000 and the number 0.1, rounded. *)
Example fractional_factor_run :
  let rejected := Rejected (ThrownResilientFetchError network_error) in
  let w := always (Rejects (ThrownTypeError "Network request failed")) in
  exists tr tr',
    resilientFetch
      (mkOptions None None (Some (num 1000)) (Some (ratio 3 2)) None None) w
      = Some (mkRun tr rejected) /\
    schedule tr
      = [EvFetch 1; EvDelay (num 1000); EvFetch 2; EvDelay (num 1500);
         EvFetch 3] /\
    resilientFetch
      (mkOptions None None (Some (num 1000)) (Some (ratio 1 10)) None None) w
      = Some (mkRun tr' rejected) /\
    waits_before 3 tr' = Some [num 100].
Proof. cbv zeta. eexists _, _. repeat split; reflexivity. Qed.

Example unreachable_host_run :
  exists tr,
    resilientFetch (mkOptions None (Some 1) None None None None)
      (always (Rejects (ThrownTypeError "Network request failed")))
      = Some (mkRun tr (Rejected (ThrownResilientFetchError network_error))) /\
    schedule tr = [EvFetch 1; EvDelay (num 1500); EvFetch 2].
Proof. eexists. split; reflexivity. Qed.


(** ** One iteration *)

Ltac unfold_body :=
  unfold iteration, try_catch, try_block, catch_block, fetch,
    controller_aborted, backoff_and_continue, throw_lastError,
    new_ResilientFetchError, set_lastError, get_lastError,
    set_currentDelay, get_currentDelay, delay, console_log,
    throw, continue, return_, abrupt, emit, bind, ret, signal_aborted.

Ltac split_conditions :=
  repeat (cbn [lastError currentDelay];
          match goal with
          | |- context [match ?x with _ => _ end] =>
              match type of x with
              | bool => destruct x eqn:?
              | Settled => destruct x eqn:?
              | Thrown => destruct x eqn:?
              | option _ => destruct x eqn:?
              end
          end).

Lemma built_in_plain w a m c :
  c <> offline -> c <> server -> built_in w a (mkResilientFetchError m c None).
Proof. intros; split; assumption. Qed.

Lemma built_in_server w a m r :
  settles (w a) = Resolves r ->
  ok r = false ->
  built_in w a (mkResilientFetchError m server (Some (resp_status r))).
Proof.
  intros H Hok; split; cbn; [discriminate|].
  split; [reflexivity|]. exists r; auto.
Qed.

Ltac built :=
  repeat apply Forall_cons; try apply Forall_nil;
  first [ apply built_in_plain; discriminate
        | apply built_in_server; assumption ].

Ltac shape_done :=
  split; cycle 1;
  [ first
      [ left; split; [reflexivity|]; split; [lia|]; split; [reflexivity|];
        eexists; reflexivity
      | right; left; eexists; repeat split; solve [reflexivity | eassumption]
      | right; right; eexists; split; [reflexivity|]; split; [reflexivity|];
        eexists; split; [reflexivity|];
        first [ left; cbn; tauto | right; reflexivity ] ]
  | built ].

Ltac pick_news :=
  first [ solve [exists []; shape_done]
        | solve [eexists [_]; shape_done]
        | solve [eexists [_; _]; shape_done]
        | solve [eexists [_; _; _]; shape_done] ].

Section Iteration.

Variable o : ResilientFetchOptions.
Variable w : World.

(** What one iteration can do: throw [aborted] before any request, or issue
    exactly one request and then continue after a wait, return an ok
    response, or throw a [ResilientFetchError]. *)
Lemma iteration_inv a st evs st1 c :
  iteration o w a st = (evs, st1, c) ->
  (signal_aborted (abortSignal o) (AtStart a) = true /\
   evs = [EvNew aborted_error] /\
   c = Abrupt (Throw (ThrownResilientFetchError aborted_error)))
  \/
  (signal_aborted (abortSignal o) (AtStart a) = false /\
   exists news, Forall (built_in w a) news /\
     ((c = Abrupt Continue /\ a < maxAttempts o /\
       currentDelay st1 = times (currentDelay st) (backoffFactor o) /\
       exists line, evs = EvFetch a :: map EvNew news
                            ++ [EvLog line; EvDelay (currentDelay st)])
      \/ (exists r, c = Abrupt (Return r) /\ evs = [EvFetch a] /\
            settles (w a) = Resolves r /\ ok r = true)
      \/ (exists t, c = Abrupt (Throw t) /\
            evs = EvFetch a :: map EvNew news /\
            exists e, t = ThrownResilientFetchError e /\
              (In e news \/ settles (w a) = Rejects t)))).
Proof.
  unfold_body.
  destruct (abortSignal o) as [s|]; [destruct (s (AtStart a)) eqn:Hs|].
  - intros H; inversion H; subst. left. auto.
  - destruct (settles (w a)) as [r|t] eqn:Hset; split_conditions; cbn [app];
      intros H; inversion H; subst; clear H; right; (split; [reflexivity|]);
      repeat match goal with
             | H : (_ <? _) = true |- _ => apply Z.ltb_lt in H
             end;
      pick_news.
  - destruct (settles (w a)) as [r|t] eqn:Hset; split_conditions; cbn [app];
      intros H; inversion H; subst; clear H; right; (split; [reflexivity|]);
      repeat match goal with
             | H : (_ <? _) = true |- _ => apply Z.ltb_lt in H
             end;
      pick_news.
Qed.

End Iteration.

(** ** The loop *)

Section Loop.

Variable o : ResilientFetchOptions.
Variable w : World.

Lemma iteration_not_normal a st evs st1 u :
  iteration o w a st <> (evs, st1, Normal u).
Proof.
  intros H. apply iteration_inv in H.
  destruct H as [(_ & _ & H) | (_ & news & _ & [H | [H | H]])].
  - discriminate.
  - destruct H as (H & _); discriminate.
  - destruct H as (r & H & _); discriminate.
  - destruct H as (t & H & _); discriminate.
Qed.

Lemma for_loop_sound fuel :
  forall a st evs x,
    for_loop o w fuel a st = Some (evs, x) -> loop_run o w a st evs x.
Proof.
  induction fuel as [|fuel IH]; intros a st evs x H; [discriminate|].
  cbn [for_loop] in H.
  destruct (a <=? maxAttempts o) eqn:Hle.
  2:{ inversion H; subst. apply run_completed. apply Z.leb_gt, Hle. }
  apply Z.leb_le in Hle.
  destruct (iteration o w a st) as [[evs0 st1] c] eqn:Hit.
  destruct c as [u|[ | r | t]].
  - now apply iteration_not_normal in Hit.
  - destruct (for_loop o w fuel (a + 1) st1) as [[evs' x']|] eqn:Hrest;
      [|discriminate].
    inversion H; subst. eapply run_continue; eauto.
  - inversion H; subst. eapply run_return; eauto.
  - inversion H; subst. eapply run_throw; eauto.
Qed.

(** The loop terminates: a unit of fuel per remaining iteration and one
    for the last test of the condition are enough. *)
Lemma for_loop_total fuel :
  forall a st,
    (Z.to_nat (maxAttempts o + 1 - a) < fuel)%nat ->
    exists r, for_loop o w fuel a st = Some r.
Proof.
  induction fuel as [|fuel IH]; intros a st Hfuel; [lia|].
  cbn [for_loop].
  destruct (a <=? maxAttempts o) eqn:Hle; [|eauto].
  apply Z.leb_le in Hle.
  destruct (IH (a + 1)) with (st := snd (fst (iteration o w a st)))
    as [[evs' x'] Hrest]; [lia|].
  destruct (iteration o w a st) as [[evs0 st1] c]; cbn [fst snd] in Hrest.
  destruct c as [[]|[ | r | t]]; rewrite ?Hrest; eauto.
Qed.

(** More fuel does not change the result. *)
Lemma for_loop_more_fuel fuel :
  forall a st r n,
    for_loop o w fuel a st = Some r ->
    for_loop o w (fuel + n) a st = Some r.
Proof.
  induction fuel as [|fuel IH]; intros a st r n H; [discriminate|].
  cbn [for_loop Nat.add] in *.
  destruct (a <=? maxAttempts o); [|exact H].
  destruct (iteration o w a st) as [[evs0 st1] c].
  destruct c as [[]|[ | rsp | t]]; try exact H;
    (destruct (for_loop o w fuel (a + 1) st1) as [[evs' x']|] eqn:Hrest;
     [rewrite (IH _ _ _ n Hrest); exact H | discriminate]).
Qed.

(** The relation is functional: it reads off what the loop computes. *)
Lemma loop_run_deterministic a st evs x :
  loop_run o w a st evs x ->
  forall evs' x', loop_run o w a st evs' x' -> evs' = evs /\ x' = x.
Proof.
  induction 1 as [a st Hgt | a st evs0 st1 evs x Hle Hit Hrest IH
                 | a st evs0 st1 r Hle Hit | a st evs0 st1 t Hle Hit];
    intros evs' x' H'; inversion H'; subst; try lia;
    try (rewrite Hit in *; congruence); auto.
  - match goal with
    | H : iteration _ _ _ _ = _ |- _ => rewrite Hit in H; inversion H; subst
    end.
    match goal with
    | H : loop_run _ _ _ _ _ _ |- _ => destruct (IH _ _ H) as [-> ->]
    end.
    auto.
  - match goal with
    | H : iteration _ _ _ _ = _ |- _ => rewrite Hit in H; inversion H; subst
    end. auto.
  - match goal with
    | H : iteration _ _ _ _ = _ |- _ => rewrite Hit in H; inversion H; subst
    end. auto.
Qed.

Lemma run_loop_total : exists r, run_loop o w = Some r.
Proof. apply for_loop_total. lia. Qed.

Lemma run_loop_sound evs x :
  run_loop o w = Some (evs, x) -> loop_run o w 1 (initial_state o) evs x.
Proof. apply for_loop_sound. Qed.

End Loop.

(** ** Reading the events of an iteration *)

Lemma issued_app k tr1 tr2 :
  issued k (tr1 ++ tr2) = issued k tr1 || issued k tr2.
Proof. apply existsb_app. Qed.

Lemma issued_news k news : issued k (map EvNew news) = false.
Proof. induction news as [|e news IH]; [reflexivity | exact IH]. Qed.

Lemma fetch_count_app tr1 tr2 :
  fetch_count (tr1 ++ tr2) = (fetch_count tr1 + fetch_count tr2)%nat.
Proof. unfold fetch_count. now rewrite filter_app, length_app. Qed.

Lemma fetch_count_news news : fetch_count (map EvNew news) = 0%nat.
Proof. induction news as [|e news IH]; [reflexivity | exact IH]. Qed.

Lemma schedule_app tr1 tr2 :
  schedule (tr1 ++ tr2) = schedule tr1 ++ schedule tr2.
Proof. apply filter_app. Qed.

Lemma schedule_news news : schedule (map EvNew news) = [].
Proof. induction news as [|e news IH]; [reflexivity | exact IH]. Qed.


Lemma issued_In k tr : issued k tr = true <-> In (EvFetch k) tr.
Proof.
  unfold issued. rewrite existsb_exists. split.
  - intros ([a| | |] & Hin & Heq); try discriminate.
    apply Z.eqb_eq in Heq. now subst.
  - intros Hin. exists (EvFetch k). split; [exact Hin | apply Z.eqb_refl].
Qed.

Section IterationCases.

Variable o : ResilientFetchOptions.
Variable w : World.

Lemma iteration_continue_inv a st evs st1 :
  iteration o w a st = (evs, st1, Abrupt Continue) ->
  signal_aborted (abortSignal o) (AtStart a) = false /\
  a < maxAttempts o /\
  currentDelay st1 = times (currentDelay st) (backoffFactor o) /\
  exists news line,
    Forall (built_in w a) news /\
    evs = EvFetch a :: map EvNew news
            ++ [EvLog line; EvDelay (currentDelay st)].
Proof.
  intros H. apply iteration_inv in H.
  destruct H as [(_ & _ & H) | (Hs & news & Hnews & [H | [H | H]])].
  - discriminate.
  - destruct H as (_ & Hlt & Hcd & line & ->). eauto 8.
  - destruct H as (r & H & _); discriminate.
  - destruct H as (t & H & _); discriminate.
Qed.

Lemma iteration_return_inv a st evs st1 r :
  iteration o w a st = (evs, st1, Abrupt (Return r)) ->
  signal_aborted (abortSignal o) (AtStart a) = false /\
  evs = [EvFetch a] /\ settles (w a) = Resolves r /\ ok r = true.
Proof.
  intros H. apply iteration_inv in H.
  destruct H as [(_ & _ & H) | (Hs & news & Hnews & [H | [H | H]])].
  - discriminate.
  - destruct H as (H & _); discriminate.
  - destruct H as (r' & H & -> & Hr & Hok). inversion H; subst. auto.
  - destruct H as (t & H & _); discriminate.
Qed.

Lemma iteration_throw_inv a st evs st1 t :
  iteration o w a st = (evs, st1, Abrupt (Throw t)) ->
  (signal_aborted (abortSignal o) (AtStart a) = true /\
   evs = [EvNew aborted_error] /\
   t = ThrownResilientFetchError aborted_error)
  \/
  (signal_aborted (abortSignal o) (AtStart a) = false /\
   exists news e,
     Forall (built_in w a) news /\
     evs = EvFetch a :: map EvNew news /\
     t = ThrownResilientFetchError e /\
     (In e news \/ settles (w a) = Rejects t)).
Proof.
  intros H. apply iteration_inv in H.
  destruct H as [(Hs & -> & H) | (Hs & news & Hnews & [H | [H | H]])].
  - inversion H; subst. auto.
  - destruct H as (H & _); discriminate.
  - destruct H as (r & H & _); discriminate.
  - destruct H as (t' & H & -> & e & -> & He). inversion H; subst.
    right. eauto 8.
Qed.

(** The loop is left through its condition only when no iteration ran. *)
Lemma loop_run_completed a st evs st' :
  loop_run o w a st evs (Completed st') ->
  maxAttempts o < a /\ evs = [] /\ st' = st.
Proof.
  intros H. remember (Completed st') as x eqn:Hx.
  induction H as [a st Hgt | a st evs0 st1 evs x Hle Hit Hrest IH
                 | a st evs0 st1 r Hle Hit | a st evs0 st1 t Hle Hit];
    try discriminate.
  - inversion Hx; subst. auto.
  - apply iteration_continue_inv in Hit. destruct (IH Hx) as (Hgt & _). lia.
Qed.

(** A call is its loop, followed by the final [throw] when the loop was
    left through its condition. *)
Lemma resilientFetch_cases :
  exists evs x,
    run_loop o w = Some (evs, x) /\
    loop_run o w 1 (initial_state o) evs x /\
    match x with
    | Returned r => resilientFetch o w = Some (mkRun evs (Fulfilled r))
    | Threw t => resilientFetch o w = Some (mkRun evs (Rejected t))
    | Completed _ =>
        retries o < 0 /\ evs = [] /\
        resilientFetch o w =
          Some (mkRun [EvNew request_failed]
                  (Rejected (ThrownResilientFetchError request_failed)))
    end.
Proof.
  destruct (run_loop_total o w) as [[evs x] Hrun].
  pose proof (run_loop_sound _ _ _ _ Hrun) as Hsound.
  exists evs, x. split; [exact Hrun|]. split; [exact Hsound|].
  unfold resilientFetch. rewrite Hrun.
  destruct x as [st | r | t]; try reflexivity.
  apply loop_run_completed in Hsound. destruct Hsound as (Hgt & -> & ->).
  unfold maxAttempts in Hgt. split; [lia|]. split; reflexivity.
Qed.

End IterationCases.

(** ** The trace of a run of the loop *)

(** Induction over the runs of the loop, with each iteration inverted. *)
Ltac by_cases H :=
  induction H as [a st Hgt | a st evs0 st1 evs x Hle Hit Hrest IH
                 | a st evs0 st1 r Hle Hit | a st evs0 st1 t Hle Hit];
  [ | apply iteration_continue_inv in Hit;
      destruct Hit as (Hs & Hlt & Hcd & news & line & Hnews & ->)
    | apply iteration_return_inv in Hit;
      destruct Hit as (Hs & -> & Hr & Hok)
    | apply iteration_throw_inv in Hit;
      destruct Hit as [(Hs & -> & ->)
                      | (Hs & news & e & Hnews & -> & -> & He)] ].


Lemma In_news e news : In (EvNew e) (map EvNew news) -> In e news.
Proof.
  rewrite in_map_iff. intros (e' & Heq & Hin). now inversion Heq; subst.
Qed.

Lemma built_in_code w a e : built_in w a e -> code e <> offline.
Proof. now intros (H & _). Qed.

Section Traces.

Variable o : ResilientFetchOptions.
Variable w : World.

(** The events of an iteration that continues mention one request. *)
Lemma issued_retry k a news line d :
  issued k (EvFetch a :: map EvNew news ++ [EvLog line; EvDelay d])
  = (a =? k).
Proof.
  cbn [issued existsb].
  fold (issued k (map EvNew news ++ [EvLog line; EvDelay d])).
  rewrite issued_app, issued_news. cbn. now rewrite orb_false_r.
Qed.

Lemma issued_throw k a news :
  issued k (EvFetch a :: map EvNew news) = (a =? k).
Proof.
  cbn [issued existsb]. fold (issued k (map EvNew news)).
  rewrite issued_news. now rewrite orb_false_r.
Qed.

(** Only attempts within the budget are issued, each while the caller's
    signal reads not aborted. *)
Lemma loop_run_issued_range a st evs x :
  loop_run o w a st evs x ->
  forall k, issued k evs = true ->
    a <= k <= maxAttempts o /\
    signal_aborted (abortSignal o) (AtStart k) = false.
Proof.
  intros H. by_cases H; intros k Hk.
  - discriminate.
  - rewrite issued_app, issued_retry in Hk.
    apply orb_true_iff in Hk. destruct Hk as [Hk | Hk].
    + apply Z.eqb_eq in Hk. subst. split; [lia | exact Hs].
    + destruct (IH _ Hk). split; [lia | assumption].
  - cbn in Hk. rewrite orb_false_r in Hk. apply Z.eqb_eq in Hk. subst.
    split; [lia | exact Hs].
  - discriminate.
  - rewrite issued_throw in Hk. apply Z.eqb_eq in Hk. subst.
    split; [lia | exact Hs].
Qed.

(** The request issuer is invoked once per iteration at most. *)
Lemma loop_run_fetch_count a st evs x :
  loop_run o w a st evs x ->
  (fetch_count evs <= Z.to_nat (maxAttempts o + 1 - a))%nat.
Proof.
  intros H. by_cases H.
  - cbn. lia.
  - change (EvFetch a :: map EvNew news
              ++ [EvLog line; EvDelay (currentDelay st)])
      with ([EvFetch a] ++ map EvNew news
              ++ [EvLog line; EvDelay (currentDelay st)]).
    rewrite !fetch_count_app, fetch_count_news. cbn. lia.
  - cbn. lia.
  - cbn. lia.
  - change (EvFetch a :: map EvNew news)
      with ([EvFetch a] ++ map EvNew news).
    rewrite !fetch_count_app, fetch_count_news. cbn. lia.
Qed.

(** The run from an issued attempt [k] is a suffix of the run, entered
    with the delay grown [k - a] times; the attempts before it are
    earlier ones. *)
Lemma loop_run_reaches a st evs x :
  loop_run o w a st evs x ->
  forall k, issued k evs = true ->
    exists pre st' evs',
      evs = pre ++ evs' /\
      loop_run o w k st' evs' x /\
      currentDelay st' = grown (currentDelay st) (backoffFactor o) (k - a) /\
      forall j, issued j pre = true -> j < k.
Proof.
  intros H.
  induction H as [a st Hgt | a st evs0 st1 evs x Hle Hit Hrest IH
                 | a st evs0 st1 r Hle Hit | a st evs0 st1 t Hle Hit];
    intros k Hk.
  - discriminate.
  - destruct (Z.eq_dec k a) as [-> | Hne].
    + exists [], st, (evs0 ++ evs). rewrite Z.sub_diag, grown_0.
      repeat split; [eapply run_continue; eauto | discriminate].
    + pose proof (iteration_continue_inv _ _ _ _ _ _ Hit)
        as (Hs & Hlt & Hcd & news & line & Hnews & ->).
      rewrite issued_app, issued_retry in Hk.
      apply orb_true_iff in Hk. destruct Hk as [Hk | Hk];
        [apply Z.eqb_eq in Hk; congruence|].
      destruct (loop_run_issued_range _ _ _ _ Hrest _ Hk) as (Hrange & _).
      destruct (IH _ Hk) as (pre & st' & evs' & -> & Hrun & Hd & Hpre).
      eexists (_ ++ pre), st', evs'. split; [now rewrite app_assoc|].
      split; [exact Hrun|]. split.
      * rewrite Hd, Hcd. replace (k - a) with (k - (a + 1) + 1) by lia.
        now rewrite grown_head by lia.
      * intros j Hj. rewrite issued_app, issued_retry in Hj.
        apply orb_true_iff in Hj. destruct Hj as [Hj | Hj].
        -- apply Z.eqb_eq in Hj. lia.
        -- now apply Hpre.
  - apply iteration_return_inv in Hit as Hit'.
    destruct Hit' as (Hs & -> & Hr & Hok).
    cbn in Hk. rewrite orb_false_r in Hk. apply Z.eqb_eq in Hk. subst.
    exists [], st, [EvFetch k]. rewrite Z.sub_diag, grown_0.
    repeat split; [eapply run_return; eauto | discriminate].
  - apply iteration_throw_inv in Hit as Hit'.
    destruct Hit' as [(Hs & -> & ->)
                     | (Hs & news & e & Hnews & -> & -> & He)];
      [discriminate|].
    rewrite issued_throw in Hk. apply Z.eqb_eq in Hk. subst.
    exists [], st, (EvFetch k :: map EvNew news).
    rewrite Z.sub_diag, grown_0.
    repeat split; [eapply run_throw; eauto | discriminate].
Qed.

End Traces.

(** ** The ways through one iteration *)

Ltac compute_iteration :=
  unfold signal_aborted in *; unfold_body;
  destruct (abortSignal _);
  repeat match goal with
         | H : ?x = ?x |- _ => clear H
         | H : false = true |- _ => discriminate H
         | H : ?l = _ |- context [?l] => rewrite H
         end;
  cbn [orb andb app lastError currentDelay];
  try reflexivity.

Section Paths.

Variable o : ResilientFetchOptions.
Variable w : World.

Lemma iteration_aborted_at_start a st :
  signal_aborted (abortSignal o) (AtStart a) = true ->
  iteration o w a st =
    ([EvNew aborted_error], st,
     Abrupt (Throw (ThrownResilientFetchError aborted_error))).
Proof. intros Hs. compute_iteration. Qed.

Lemma iteration_ok a st r :
  signal_aborted (abortSignal o) (AtStart a) = false ->
  settles (w a) = Resolves r ->
  ok r = true ->
  iteration o w a st = ([EvFetch a], st, Abrupt (Return r)).
Proof. intros Hs Hr Hok. compute_iteration. Qed.

Lemma iteration_retryable a st r :
  signal_aborted (abortSignal o) (AtStart a) = false ->
  settles (w a) = Resolves r ->
  ok r = false ->
  existsb (Z.eqb (resp_status r)) (retryOnStatuses o) = true ->
  (a <? maxAttempts o) = true ->
  iteration o w a st =
    ([EvFetch a; EvNew (server_error r);
      EvLog (retry_line o a (show (resp_status r)));
      EvDelay (currentDelay st)],
     mkState (Some (server_error r))
       (times (currentDelay st) (backoffFactor o)),
     Abrupt Continue).
Proof. intros Hs Hr Hok Hin Hlt. compute_iteration. Qed.

Lemma iteration_retryable_last a st r :
  signal_aborted (abortSignal o) (AtStart a) = false ->
  settles (w a) = Resolves r ->
  ok r = false ->
  existsb (Z.eqb (resp_status r)) (retryOnStatuses o) = true ->
  (a <? maxAttempts o) = false ->
  signal_aborted (abortSignal o) (AtSettle a) = false ->
  timer_fired (w a) = false ->
  iteration o w a st =
    ([EvFetch a; EvNew (server_error r); EvNew (server_error r)],
     mkState (Some (server_error r)) (currentDelay st),
     Abrupt (Throw (ThrownResilientFetchError (server_error r)))).
Proof. intros Hs Hr Hok Hin Hlt Hs' Ht. compute_iteration. Qed.

Lemma iteration_not_retryable a st r :
  signal_aborted (abortSignal o) (AtStart a) = false ->
  settles (w a) = Resolves r ->
  ok r = false ->
  existsb (Z.eqb (resp_status r)) (retryOnStatuses o) = false ->
  signal_aborted (abortSignal o) (AtSettle a) = false ->
  timer_fired (w a) = false ->
  iteration o w a st =
    ([EvFetch a; EvNew (server_error r)], st,
     Abrupt (Throw (ThrownResilientFetchError (server_error r)))).
Proof. intros Hs Hr Hok Hin Hs' Ht. compute_iteration. Qed.

Lemma iteration_not_retryable_aborted a st r :
  signal_aborted (abortSignal o) (AtStart a) = false ->
  settles (w a) = Resolves r ->
  ok r = false ->
  existsb (Z.eqb (resp_status r)) (retryOnStatuses o) = false ->
  signal_aborted (abortSignal o) (AtSettle a) = true ->
  iteration o w a st =
    ([EvFetch a; EvNew (server_error r); EvNew aborted_error], st,
     Abrupt (Throw (ThrownResilientFetchError aborted_error))).
Proof. intros Hs Hr Hok Hin Hs'. compute_iteration. Qed.

Lemma iteration_rejects_aborted a st t :
  signal_aborted (abortSignal o) (AtStart a) = false ->
  settles (w a) = Rejects t ->
  signal_aborted (abortSignal o) (AtSettle a) = true ->
  iteration o w a st =
    ([EvFetch a; EvNew aborted_error], st,
     Abrupt (Throw (ThrownResilientFetchError aborted_error))).
Proof. intros Hs Hr Hs'. compute_iteration. Qed.

Lemma iteration_type_error a st msg :
  signal_aborted (abortSignal o) (AtStart a) = false ->
  settles (w a) = Rejects (ThrownTypeError msg) ->
  signal_aborted (abortSignal o) (AtSettle a) = false ->
  timer_fired (w a) = false ->
  iteration o w a st =
    if a <? maxAttempts o then
      ([EvFetch a; EvNew network_error;
        EvLog (retry_line o a "network error");
        EvDelay (currentDelay st)],
       mkState (Some network_error) (times (currentDelay st) (backoffFactor o)),
       Abrupt Continue)
    else
      ([EvFetch a; EvNew network_error],
       mkState (Some network_error) (currentDelay st),
       Abrupt (Throw (ThrownResilientFetchError network_error))).
Proof.
  intros Hs Hr Hs' Ht. compute_iteration;
    destruct (a <? maxAttempts o); reflexivity.
Qed.


(** What the loop does after an iteration that throws, returns or
    continues. *)
Lemma loop_run_after_throw a st evs0 st1 t evs x :
  a <= maxAttempts o ->
  iteration o w a st = (evs0, st1, Abrupt (Throw t)) ->
  loop_run o w a st evs x ->
  evs = evs0 /\ x = Threw t.
Proof.
  intros Hle Hit Hrun.
  eapply loop_run_deterministic; [|exact Hrun]. eapply run_throw; eauto.
Qed.

Lemma loop_run_after_continue a st evs0 st1 evs x :
  iteration o w a st = (evs0, st1, Abrupt Continue) ->
  loop_run o w a st evs x ->
  exists evs', evs = evs0 ++ evs' /\ loop_run o w (a + 1) st1 evs' x.
Proof.
  intros Hit Hrun. inversion Hrun; subst.
  - apply iteration_continue_inv in Hit. lia.
  - match goal with
    | H : iteration _ _ _ _ = _ |- _ => rewrite Hit in H; inversion H; subst
    end. eauto.
  - congruence.
  - congruence.
Qed.

(** The first event of an iteration inside the budget. *)
Lemma loop_run_head a st evs x :
  a <= maxAttempts o ->
  loop_run o w a st evs x ->
  if signal_aborted (abortSignal o) (AtStart a)
  then evs = [EvNew aborted_error] /\
       x = Threw (ThrownResilientFetchError aborted_error)
  else exists evs', evs = EvFetch a :: evs'.
Proof.
  intros Hle Hrun. inversion Hrun; subst; [lia| | |].
  - match goal with
    | H : iteration _ _ _ _ = _ |- _ => apply iteration_continue_inv in H;
        destruct H as (-> & _ & _ & news & line & _ & ->)
    end. cbn [app]. eauto.
  - match goal with
    | H : iteration _ _ _ _ = _ |- _ => apply iteration_return_inv in H;
        destruct H as (-> & -> & _)
    end. eauto.
  - match goal with
    | H : iteration _ _ _ _ = _ |- _ => apply iteration_throw_inv in H;
        destruct H as [(-> & -> & ->) | (-> & news & e & _ & -> & _)]
    end; eauto.
Qed.

End Paths.

(** ** Whole calls *)

Section Calls.

Variable o : ResilientFetchOptions.
Variable w : World.

Lemma call_of_loop_run evs x :
  loop_run o w 1 (initial_state o) evs x ->
  forall oc, exit_outcome x oc ->
    resilientFetch o w = Some (mkRun evs oc).
Proof.
  intros Hrun oc Hoc.
  destruct (resilientFetch_cases o w) as (evs' & x' & _ & Hrun' & Hcall).
  destruct (loop_run_deterministic _ _ _ _ _ _ Hrun _ _ Hrun') as [-> ->].
  destruct x as [st | r | t]; cbn in Hoc; subst; tauto.
Qed.

Lemma call_with_budget :
  0 <= retries o ->
  exists run x,
    resilientFetch o w = Some run /\
    loop_run o w 1 (initial_state o) (trace run) x /\
    exit_outcome x (outcome run).
Proof.
  intros Hn.
  destruct (resilientFetch_cases o w) as (evs & x & _ & Hrun & Hcall).
  destruct x as [st | r | t].
  - destruct Hcall as (Hneg & _). lia.
  - exists (mkRun evs (Fulfilled r)), (Returned r). cbn. auto.
  - exists (mkRun evs (Rejected t)), (Threw t). cbn. auto.
Qed.

Lemma call_issued k :
  attempt_issued o w k = true ->
  exists run x,
    resilientFetch o w = Some run /\
    loop_run o w 1 (initial_state o) (trace run) x /\
    issued k (trace run) = true /\
    exit_outcome x (outcome run).
Proof.
  unfold attempt_issued. intros Hk.
  destruct (resilientFetch_cases o w) as (evs & x & _ & Hrun & Hcall).
  destruct x as [st | r | t].
  - destruct Hcall as (_ & _ & Hcall). rewrite Hcall in Hk. discriminate.
  - rewrite Hcall in Hk. exists (mkRun evs (Fulfilled r)), (Returned r).
    cbn. auto.
  - rewrite Hcall in Hk. exists (mkRun evs (Rejected t)), (Threw t).
    cbn. auto.
Qed.

(** The run from an issued attempt, inside the whole call. *)
Lemma call_reaches k :
  attempt_issued o w k = true ->
  exists run x pre st evs,
    resilientFetch o w = Some run /\
    trace run = pre ++ evs /\
    (forall j, issued j pre = true -> j < k) /\
    loop_run o w k st evs x /\
    currentDelay st = grown (retryDelayMs o) (backoffFactor o) (k - 1) /\
    k <= maxAttempts o /\
    signal_aborted (abortSignal o) (AtStart k) = false /\
    exit_outcome x (outcome run).
Proof.
  intros Hk.
  destruct (call_issued _ Hk) as (run & x & Hcall & Hrun & Hin & Hoc).
  destruct (loop_run_issued_range _ _ _ _ _ _ Hrun _ Hin) as (Hrange & Hs).
  destruct (loop_run_reaches _ _ _ _ _ _ Hrun _ Hin)
    as (pre & st & evs & Htr & Hrun' & Hd & Hpre).
  exists run, x, pre, st, evs. repeat split; auto; lia.
Qed.

End Calls.

(** ** Delays and constructed errors along a run *)

Section Along.

Variable o : ResilientFetchOptions.
Variable w : World.


Lemma constructed_ok_built a e tr :
  built_in w a e -> issued a tr = true -> constructed_ok w tr e.
Proof.
  unfold built_in, constructed_ok. intros (Hc & Hs) Ha. split; [exact Hc|].
  destruct (status e) as [s|]; [|exact Hs].
  destruct Hs as (Hsrv & r & Hr & Hrs & _). split; [exact Hsrv|].
  exists a, r. auto.
Qed.

Lemma constructed_ok_aborted tr : constructed_ok w tr aborted_error.
Proof. split; cbn; discriminate. Qed.

Lemma constructed_ok_more tr1 tr2 e :
  constructed_ok w tr2 e -> constructed_ok w (tr1 ++ tr2) e.
Proof.
  unfold constructed_ok. intros (Hc & Hs). split; [exact Hc|].
  destruct (status e) as [s|]; [|exact Hs].
  destruct Hs as (Hsrv & k & r & Hk & Hr & Hrs). split; [exact Hsrv|].
  exists k, r. rewrite issued_app, Hk, orb_true_r. auto.
Qed.

Lemma loop_run_constructed a st evs x :
  loop_run o w a st evs x ->
  forall e, In (EvNew e) evs -> constructed_ok w evs e.
Proof.
  intros H. by_cases H; intros e' Hin.
  - destruct Hin.
  - apply in_app_or in Hin. destruct Hin as [Hin | Hin].
    + destruct Hin as [Hin | Hin]; [discriminate|].
      apply in_app_or in Hin. destruct Hin as [Hin | Hin].
      * apply In_news in Hin. rewrite Forall_forall in Hnews.
        eapply constructed_ok_built; [apply Hnews, Hin|].
        rewrite issued_app, issued_retry, Z.eqb_refl. reflexivity.
      * destruct Hin as [Hin | [Hin | []]]; discriminate.
    + apply constructed_ok_more. now apply IH.
  - destruct Hin as [Hin | []]; discriminate.
  - destruct Hin as [Hin | []]. inversion Hin; subst.
    apply constructed_ok_aborted.
  - destruct Hin as [Hin | Hin]; [discriminate|].
    apply In_news in Hin. rewrite Forall_forall in Hnews.
    eapply constructed_ok_built; [apply Hnews, Hin|].
    rewrite issued_throw, Z.eqb_refl. reflexivity.
Qed.








(** A thrown value is a [ResilientFetchError]: one the run constructed, or
    the one an issued request was rejected with, unchanged. *)
Lemma loop_run_thrown a0 st0 evs0' thrown :
  loop_run o w a0 st0 evs0' (Threw thrown) ->
  exists e, thrown = ThrownResilientFetchError e /\
    (In (EvNew e) evs0' \/
     exists k, issued k evs0' = true /\ settles (w k) = Rejects thrown).
Proof.
  intros H. remember (Threw thrown) as x eqn:Hx. revert Hx.
  by_cases H; intros Hx; try discriminate.
  - destruct (IH Hx) as (e & -> & [Hin | (k & Hk & Hr)]); exists e;
      (split; [reflexivity|]).
    + left. apply in_or_app; auto.
    + right. exists k. rewrite issued_app, Hk, orb_true_r. auto.
  - inversion Hx; subst. exists aborted_error. split; [reflexivity|].
    left. now left.
  - inversion Hx; subst. exists e. split; [reflexivity|].
    destruct He as [He | He].
    + left. right. now apply in_map.
    + right. exists a. rewrite issued_throw, Z.eqb_refl. auto.
Qed.

(** A returned response is the ok response of an issued request. *)
Lemma loop_run_returned a0 st0 evs0' response :
  loop_run o w a0 st0 evs0' (Returned response) ->
  ok response = true /\
  exists k, issued k evs0' = true /\ settles (w k) = Resolves response.
Proof.
  intros H. remember (Returned response) as x eqn:Hx. revert Hx.
  by_cases H; intros Hx; try discriminate.
  - destruct (IH Hx) as (Hok & k & Hk & Hr). split; [exact Hok|].
    exists k. rewrite issued_app, Hk, orb_true_r. auto.
  - inversion Hx; subst. split; [exact Hok|].
    exists a. cbn. rewrite Z.eqb_refl. auto.
Qed.

(** The requests of a run are those of consecutive attempts: the k-th
    invocation of the issuer is the request of attempt [a + k - 1]. *)
Lemma filter_fetch_news news : filter is_fetch (map EvNew news) = [].
Proof. induction news as [|e news IH]; [reflexivity | exact IH]. Qed.

Lemma loop_run_fetches a0 st0 evs0' x0 :
  loop_run o w a0 st0 evs0' x0 ->
  filter is_fetch evs0' = attempts_from a0 (fetch_count evs0').
Proof.
  intros H. by_cases H; try reflexivity.
  - change (EvFetch a :: map EvNew news
              ++ [EvLog line; EvDelay (currentDelay st)])
      with ([EvFetch a] ++ map EvNew news
              ++ [EvLog line; EvDelay (currentDelay st)]).
    rewrite !fetch_count_app, !filter_app, fetch_count_news, filter_fetch_news.
    cbn. now rewrite IH.
  - change (EvFetch a :: map EvNew news) with ([EvFetch a] ++ map EvNew news).
    rewrite !fetch_count_app, !filter_app, fetch_count_news, filter_fetch_news.
    reflexivity.
Qed.

End Along.

(** In a call the issuer's invocations are the requests of attempts 1, 2,
    ... in order. *)
Lemma call_fetches o w :
  exists run,
    resilientFetch o w = Some run /\
    filter is_fetch (trace run)
      = attempts_from 1 (fetch_count (trace run)).
Proof.
  destruct (resilientFetch_cases o w) as (evs & x & _ & Hrun & Hcall).
  pose proof (loop_run_fetches _ _ _ _ _ _ Hrun) as Hf.
  destruct x as [st | r | t].
  - destruct Hcall as (_ & _ & Hcall). eexists. split; [exact Hcall|].
    reflexivity.
  - eexists. split; [exact Hcall | exact Hf].
  - eexists. split; [exact Hcall | exact Hf].
Qed.

(** * The claims *)

(** A call whose signal reads aborted at the top of the first iteration. *)
Lemma call_aborted_at_start o w :
  0 <= retries o ->
  signal_aborted (abortSignal o) (AtStart 1) = true ->
  resilientFetch o w =
    Some (mkRun [EvNew aborted_error]
            (Rejected (ThrownResilientFetchError aborted_error))).
Proof.
  intros Hn Hs.
  apply call_of_loop_run with
    (x := Threw (ThrownResilientFetchError aborted_error));
    [|reflexivity].
  eapply run_throw.
  - unfold maxAttempts; lia.
  - now apply iteration_aborted_at_start.
Qed.

(** C7. If the caller's abortSignal is already aborted when resilientFetch is
    called (with retries >= 0, as the options require), the call throws a
    ResilientFetchError with code 'aborted' and the request issuer is never
    invoked. *)
Theorem aborted_before_first_attempt o w :
  0 <= retries o ->
  signal_aborted (abortSignal o) (AtStart 1) = true ->
  exists run,
    resilientFetch o w = Some run /\
    outcome run = Rejected (ThrownResilientFetchError aborted_error) /\
    code aborted_error = aborted /\
    trace run = [EvNew aborted_error] /\
    fetch_count (trace run) = 0%nat.
Proof.
  intros Hn Hs. rewrite (call_aborted_at_start o w Hn Hs).
  eexists. split; [reflexivity|]. cbn. auto.
Qed.

Lemma aborted_before_first_attempt_witness :
  exists run,
    resilientFetch (with_signal already_aborted) (always (Rejects ThrownValue))
      = Some run /\
    outcome run = Rejected (ThrownResilientFetchError aborted_error) /\
    code aborted_error = aborted /\
    trace run = [EvNew aborted_error] /\
    fetch_count (trace run) = 0%nat.
Proof.
  apply (aborted_before_first_attempt
           (with_signal already_aborted) (always (Rejects ThrownValue))).
  - cbv. discriminate.
  - reflexivity.
Defined.

(** C2. For retries = n >= 0 and whatever the issuer does, resilientFetch
    terminates and invokes the request issuer at most n + 1 times; when the
    caller's signal is already aborted before the first attempt it invokes it
    zero times. *)
Theorem bounded_attempts o w (n : nat) :
  retries o = Z.of_nat n ->
  exists run,
    resilientFetch o w = Some run /\
    (fetch_count (trace run) <= n + 1)%nat /\
    (signal_aborted (abortSignal o) (AtStart 1) = true ->
     fetch_count (trace run) = 0%nat).
Proof.
  intros Hn.
  assert (Hpos : 0 <= retries o) by lia.
  destruct (call_with_budget o w Hpos) as (run & x & Hcall & Hrun & Hoc).
  exists run. split; [exact Hcall|]. split.
  - pose proof (loop_run_fetch_count _ _ _ _ _ _ Hrun) as Hcount.
    unfold maxAttempts in Hcount. lia.
  - intros Hs. rewrite (call_aborted_at_start o w Hpos Hs) in Hcall.
    inversion Hcall. reflexivity.
Qed.

Lemma bounded_attempts_witness :
  exists run,
    resilientFetch default_options busy_twice = Some run /\
    (fetch_count (trace run) <= 2 + 1)%nat /\
    (signal_aborted (abortSignal default_options) (AtStart 1) = true ->
     fetch_count (trace run) = 0%nat).
Proof.
  apply (bounded_attempts default_options busy_twice 2). reflexivity.
Defined.

(** C10. With retries >= 0 every call ends inside the loop, returning an ok
    response or throwing a ResilientFetchError, so the statement after the
    loop is not reached; with retries < 0 the loop body never runs and the
    call throws the generic 'network' error without invoking the issuer. *)
Theorem fallback_only_without_budget o w :
  exists evs x,
    run_loop o w = Some (evs, x) /\
    if 0 <=? retries o then
      (exists r, x = Returned r /\ ok r = true /\
         resilientFetch o w = Some (mkRun evs (Fulfilled r)))
      \/
      (exists e, x = Threw (ThrownResilientFetchError e) /\
         resilientFetch o w =
           Some (mkRun evs (Rejected (ThrownResilientFetchError e))))
    else
      x = Completed (initial_state o) /\ evs = [] /\
      resilientFetch o w =
        Some (mkRun [EvNew request_failed]
                (Rejected (ThrownResilientFetchError request_failed))) /\
      code request_failed = network /\
      fetch_count [EvNew request_failed] = 0%nat.
Proof.
  destruct (resilientFetch_cases o w) as (evs & x & Hloop & Hrun & Hcall).
  exists evs, x. split; [exact Hloop|].
  destruct (0 <=? retries o) eqn:Hn.
  - apply Z.leb_le in Hn. destruct x as [st | r | t].
    + destruct Hcall as (Hneg & _). lia.
    + left. exists r. destruct (loop_run_returned _ _ _ _ _ _ Hrun). auto.
    + right. destruct (loop_run_thrown _ _ _ _ _ _ Hrun) as (e & -> & _).
      exists e. auto.
  - apply Z.leb_gt in Hn.
    inversion Hrun; subst; unfold maxAttempts in *; try lia.
    destruct Hcall as (_ & _ & Hcall). auto.
Qed.

(** What a call constructs and what it throws. *)
Lemma call_constructed o w :
  exists run,
    resilientFetch o w = Some run /\
    (forall e, In (EvNew e) (trace run) -> constructed_ok w (trace run) e) /\
    (forall t, outcome run = Rejected t ->
       exists e, t = ThrownResilientFetchError e /\
         (In (EvNew e) (trace run) \/
          exists k, issued k (trace run) = true /\ settles (w k) = Rejects t)).
Proof.
  destruct (resilientFetch_cases o w) as (evs & x & _ & Hrun & Hcall).
  destruct x as [st | r | t].
  - destruct Hcall as (_ & _ & Hcall). eexists. split; [exact Hcall|].
    cbn [trace outcome]. split.
    + intros e [He | []]. inversion He; subst. split; cbn; discriminate.
    + intros t Ht. inversion Ht; subst. exists request_failed.
      split; [reflexivity|]. left. now left.
  - eexists. split; [exact Hcall|]. cbn [trace outcome]. split.
    + apply (loop_run_constructed _ _ _ _ _ _ Hrun).
    + discriminate.
  - eexists. split; [exact Hcall|]. cbn [trace outcome]. split.
    + apply (loop_run_constructed _ _ _ _ _ _ Hrun).
    + intros t' Ht. inversion Ht; subst.
      apply (loop_run_thrown _ _ _ _ _ _ Hrun).
Qed.

(** C8. resilientFetch never produces an 'offline' failure of its own: every
    ResilientFetchError it constructs has code 'timeout', 'aborted',
    'network' or 'server', and an error with code 'offline' leaves a call
    only when the request issuer itself rejected with that very error. *)
Theorem offline_never_constructed o w :
  exists run,
    resilientFetch o w = Some run /\
    (forall e, In (EvNew e) (trace run) ->
       code e = timeout \/ code e = aborted \/
       code e = network \/ code e = server) /\
    (forall e, outcome run = Rejected (ThrownResilientFetchError e) ->
       code e = offline ->
       exists k, issued k (trace run) = true /\
         settles (w k) = Rejects (ThrownResilientFetchError e)).
Proof.
  destruct (call_constructed o w) as (run & Hcall & Hnew & Hthrown).
  exists run. split; [exact Hcall|]. split.
  - intros e He. destruct (Hnew e He) as (Hc & _).
    destruct (code e); auto. congruence.
  - intros e Hout Hoff.
    destruct (Hthrown _ Hout) as (e' & Heq & [Hin | Hk]).
    + inversion Heq; subst. destruct (Hnew e' Hin) as (Hc & _). congruence.
    + exact Hk.
Qed.




(** C1. Whenever the request of an attempt fails while the caller's
    abortSignal reads aborted, resilientFetch throws 'aborted' at once,
    whatever the failure, whether or not the timer fired and whether or not
    attempts remain: the trace ends with that request and the construction
    of the error, and no later attempt is issued. *)
Theorem external_abort_first o w k t :
  attempt_issued o w k = true ->
  settles (w k) = Rejects t ->
  signal_aborted (abortSignal o) (AtSettle k) = true ->
  exists run pre,
    resilientFetch o w = Some run /\
    outcome run = Rejected (ThrownResilientFetchError aborted_error) /\
    code aborted_error = aborted /\
    trace run = pre ++ [EvFetch k; EvNew aborted_error] /\
    (forall j, issued j (trace run) = true -> j <= k).
Proof.
  intros Hk Hrej Hab.
  destruct (call_reaches o w k Hk)
    as (run & x & pre & st & evs & Hcall & Htr & Hpre & Hrun & _ & Hle & Hs
        & Hoc).
  pose proof (iteration_rejects_aborted o w k st t Hs Hrej Hab) as Hit.
  destruct (loop_run_after_throw _ _ _ _ _ _ _ _ _ Hle Hit Hrun) as [-> ->].
  exists run, pre. cbn in Hoc. repeat split; auto.
  intros j Hj. rewrite Htr, issued_app in Hj.
  apply orb_true_iff in Hj. destruct Hj as [Hj | Hj].
  - apply Hpre in Hj. lia.
  - cbn in Hj. rewrite orb_false_r in Hj. apply Z.eqb_eq in Hj. lia.
Qed.

Lemma external_abort_first_witness :
  exists run pre,
    resilientFetch (with_signal aborted_mid_second)
      (fun k => mkObs (Rejects (ThrownTypeError "Network request failed"))
                  (2 <=? k)) = Some run /\
    outcome run = Rejected (ThrownResilientFetchError aborted_error) /\
    code aborted_error = aborted /\
    trace run = pre ++ [EvFetch 2; EvNew aborted_error] /\
    (forall j, issued j (trace run) = true -> j <= 2).
Proof.
  apply (external_abort_first (with_signal aborted_mid_second)
           (fun k => mkObs (Rejects (ThrownTypeError "Network request failed"))
                       (2 <=? k)) 2
           (ThrownTypeError "Network request failed"));
    reflexivity.
Defined.







Lemma retryable_In s l : In s l -> existsb (Z.eqb s) l = true.
Proof.
  intros Hin. apply existsb_exists. exists s. split; [exact Hin|].
  apply Z.eqb_refl.
Qed.

Lemma not_retryable_In s l : ~ In s l -> existsb (Z.eqb s) l = false.
Proof.
  intros Hnin. destruct (existsb (Z.eqb s) l) eqn:Hex; [|reflexivity].
  apply existsb_exists in Hex. destruct Hex as (s' & Hin & Heq).
  apply Z.eqb_eq in Heq. subst. contradiction.
Qed.

(** The loop against an issuer that always answers a retryable error
    status: from attempt [a], with [n] attempts after it. *)
Lemma always_retryable_run o w :
  (forall i, signal_aborted (abortSignal o) i = false) ->
  (forall k, 1 <= k <= maxAttempts o ->
     exists r, settles (w k) = Resolves r /\ ok r = false /\
               In (resp_status r) (retryOnStatuses o)) ->
  timer_fired (w (maxAttempts o)) = false ->
  forall (n : nat) a st,
    1 <= a ->
    maxAttempts o - a = Z.of_nat n ->
    exists evs r,
      loop_run o w a st evs
        (Threw (ThrownResilientFetchError (server_error r))) /\
      settles (w (maxAttempts o)) = Resolves r /\
      schedule evs = backoff_schedule n a (currentDelay st) (backoffFactor o) /\
      fetch_count evs = S n.
Proof.
  intros Hsig Hresp Htimer.
  induction n as [|n IH]; intros a st Ha Hn.
  - assert (a = maxAttempts o) by lia. subst a.
    destruct (Hresp (maxAttempts o)) as (r & Hr & Hok & Hin); [lia|].
    exists [EvFetch (maxAttempts o); EvNew (server_error r);
            EvNew (server_error r)], r.
    split; [|auto].
    eapply run_throw; [lia|].
    apply iteration_retryable_last; auto.
    + now apply retryable_In.
    + apply Z.ltb_irrefl.
  - destruct (Hresp a) as (r & Hr & Hok & Hin); [lia|].
    destruct (IH (a + 1)
                (mkState (Some (server_error r))
                   (times (currentDelay st) (backoffFactor o))))
      as (evs & r' & Hrun & Hlast & Hsched & Hcount); [lia | lia |].
    eexists (_ ++ evs), r'. split; [|split; [exact Hlast|]].
    + eapply run_continue; [lia | | exact Hrun].
      apply iteration_retryable; auto.
      * now apply retryable_In.
      * apply Z.ltb_lt. lia.
    + rewrite schedule_app, fetch_count_app, Hsched, Hcount. split; reflexivity.
Qed.

(** C5, as the code has it. If on every attempt the issuer answers a status
    listed in retryOnStatuses and outside the 2xx range, the caller's signal
    is never aborted and the timer of the last attempt has not fired when its
    response is handled, resilientFetch makes exactly retries + 1 attempts,
    waits the growing delay between consecutive ones and throws a 'server'
    error with the status of the last response. *)
Theorem retryable_status_exhaustion o w :
  0 <= retries o ->
  (forall i, signal_aborted (abortSignal o) i = false) ->
  (forall k, 1 <= k <= maxAttempts o ->
     exists r, settles (w k) = Resolves r /\ ok r = false /\
               In (resp_status r) (retryOnStatuses o)) ->
  timer_fired (w (maxAttempts o)) = false ->
  exists run r,
    resilientFetch o w = Some run /\
    settles (w (maxAttempts o)) = Resolves r /\
    outcome run = Rejected (ThrownResilientFetchError (server_error r)) /\
    code (server_error r) = server /\
    status (server_error r) = Some (resp_status r) /\
    schedule (trace run)
      = backoff_schedule (Z.to_nat (retries o)) 1
          (retryDelayMs o) (backoffFactor o) /\
    fetch_count (trace run) = Z.to_nat (retries o + 1).
Proof.
  intros Hn Hsig Hresp Htimer.
  destruct (always_retryable_run o w Hsig Hresp Htimer
              (Z.to_nat (retries o)) 1 (initial_state o))
    as (evs & r & Hrun & Hlast & Hsched & Hcount);
    [lia | unfold maxAttempts; lia |].
  exists (mkRun evs (Rejected (ThrownResilientFetchError (server_error r)))), r.
  split; [eapply call_of_loop_run; [exact Hrun | reflexivity]|].
  cbn [trace outcome]. repeat split; auto.
  rewrite Hcount. lia.
Qed.

Lemma retryable_status_exhaustion_witness :
  exists run r,
    resilientFetch default_options (always (Resolves (mkResponse 503)))
      = Some run /\
    settles (always (Resolves (mkResponse 503)) (maxAttempts default_options))
      = Resolves r /\
    outcome run = Rejected (ThrownResilientFetchError (server_error r)) /\
    code (server_error r) = server /\
    status (server_error r) = Some (resp_status r) /\
    schedule (trace run)
      = backoff_schedule (Z.to_nat (retries default_options)) 1
          (retryDelayMs default_options) (backoffFactor default_options) /\
    fetch_count (trace run) = Z.to_nat (retries default_options + 1).
Proof.
  apply (retryable_status_exhaustion default_options
           (always (Resolves (mkResponse 503)))).
  - cbv. discriminate.
  - intros i. reflexivity.
  - intros k _. exists (mkResponse 503).
    split; [reflexivity|]. split; [reflexivity|]. cbn. tauto.
  - reflexivity.
Defined.

(** C5 as stated fails in two ways. A listed status inside the 2xx range is
    returned, not retried: with 202 listed and answered, the call is
    fulfilled after one request. And when the timer of the last attempt has
    fired before its 503 response is handled, the call throws 'timeout', not
    'server'. In both the caller's signal is absent. *)
Lemma retryable_status_not_exhausted :
  let o := mkOptions None None None None None (Some [202]) in
  let w := always (Resolves (mkResponse 202)) in
  let w' := fun k => mkObs (Resolves (mkResponse 503)) (3 <=? k) in
  (In 202 (retryOnStatuses o) /\
   resilientFetch o w =
     Some (mkRun [EvFetch 1] (Fulfilled (mkResponse 202)))) /\
  (In 503 (retryOnStatuses default_options) /\
   exists tr,
     resilientFetch default_options w' =
       Some (mkRun tr (Rejected (ThrownResilientFetchError timeout_error))) /\
     fetch_count tr = 3%nat).
Proof.
  cbv zeta. split; split.
  - cbn. tauto.
  - reflexivity.
  - cbn. tauto.
  - eexists. split; reflexivity.
Qed.

(** C6, as the code has it. If the first attempt receives a response whose
    status is neither in the 2xx range nor in retryOnStatuses and, as the
    response is handled, the caller's abortSignal reads aborted or the timer
    of the attempt has not fired, the call ends after exactly one request
    and no delay, even when retries > 0: it throws 'aborted' when the
    signal reads aborted, and a 'server' error with the status of the
    response otherwise. Nothing is said of a response handled after the
    timer has fired under a signal that is not aborted. *)
Theorem non_retryable_status_ends_call o w r :
  0 <= retries o ->
  signal_aborted (abortSignal o) (AtStart 1) = false ->
  settles (w 1) = Resolves r ->
  ok r = false ->
  ~ In (resp_status r) (retryOnStatuses o) ->
  signal_aborted (abortSignal o) (AtSettle 1) = true
    \/ timer_fired (w 1) = false ->
  exists run,
    resilientFetch o w = Some run /\
    schedule (trace run) = [EvFetch 1] /\
    fetch_count (trace run) = 1%nat /\
    outcome run =
      Rejected (ThrownResilientFetchError
                  (if signal_aborted (abortSignal o) (AtSettle 1)
                   then aborted_error else server_error r)) /\
    code (server_error r) = server /\
    status (server_error r) = Some (resp_status r).
Proof.
  intros Hn Hs Hr Hok Hnin Hrace.
  apply not_retryable_In in Hnin.
  assert (Hle : 1 <= maxAttempts o) by (unfold maxAttempts; lia).
  destruct (signal_aborted (abortSignal o) (AtSettle 1)) eqn:Hab.
  - pose proof (iteration_not_retryable_aborted o w 1 (initial_state o) r
                  Hs Hr Hok Hnin Hab) as Hit.
    eexists. split.
    + eapply call_of_loop_run; [eapply run_throw; eauto | reflexivity].
    + cbn. auto.
  - destruct Hrace as [Hrace | Htimer]; [discriminate|].
    pose proof (iteration_not_retryable o w 1 (initial_state o) r
                  Hs Hr Hok Hnin Hab Htimer) as Hit.
    eexists. split.
    + eapply call_of_loop_run; [eapply run_throw; eauto | reflexivity].
    + cbn. auto.
Qed.

Lemma non_retryable_status_ends_call_witness :
  exists run,
    resilientFetch default_options (always (Resolves (mkResponse 404)))
      = Some run /\
    schedule (trace run) = [EvFetch 1] /\
    fetch_count (trace run) = 1%nat /\
    outcome run =
      Rejected (ThrownResilientFetchError (server_error (mkResponse 404))) /\
    code (server_error (mkResponse 404)) = server /\
    status (server_error (mkResponse 404)) = Some 404.
Proof.
  apply (non_retryable_status_ends_call default_options
           (always (Resolves (mkResponse 404))) (mkResponse 404)).
  - cbv. discriminate.
  - reflexivity.
  - reflexivity.
  - reflexivity.
  - cbn. intros H. repeat destruct H as [H | H]; try discriminate H. exact H.
  - right. reflexivity.
Defined.

(** C6 as stated fails in two ways. When the caller aborts while the first
    request is in flight and the 404 response still arrives, the call throws
    'aborted', not 'server'. And when the timer of the attempt has fired
    before the 404 response is handled, the response is classified as a
    timeout and retried: three requests, two delays, and a 'timeout' error. *)
Lemma non_retryable_status_reclassified :
  let o := with_signal aborted_mid_first in
  let w := always (Resolves (mkResponse 404)) in
  let w' := fun _ : Z => mkObs (Resolves (mkResponse 404)) true in
  (monotone aborted_mid_first /\
   ~ In 404 (retryOnStatuses o) /\
   resilientFetch o w =
     Some (mkRun [EvFetch 1; EvNew (server_error (mkResponse 404));
                  EvNew aborted_error]
             (Rejected (ThrownResilientFetchError aborted_error)))) /\
  (exists tr,
     resilientFetch default_options w' =
       Some (mkRun tr (Rejected (ThrownResilientFetchError timeout_error))) /\
     schedule tr =
       [EvFetch 1; EvDelay (num 1500); EvFetch 2; EvDelay (num 3000);
        EvFetch 3]).
Proof.
  cbv zeta. split; [split; [|split]|].
  - intros i j Hij Hi. unfold aborted_mid_first in *.
    apply negb_true_iff in Hi. apply negb_true_iff.
    apply Z.leb_gt in Hi. apply Z.leb_gt. lia.
  - cbn. intros H. repeat destruct H as [H | H]; try discriminate H. exact H.
  - reflexivity.
  - eexists. split; reflexivity.
Qed.

(** * Further properties of [resilientFetch] *)

Section MorePaths.

Variable o : ResilientFetchOptions.
Variable w : World.

Lemma iteration_timeout a st t :
  signal_aborted (abortSignal o) (AtStart a) = false ->
  settles (w a) = Rejects t ->
  signal_aborted (abortSignal o) (AtSettle a) = false ->
  timer_fired (w a) = true ->
  iteration o w a st =
    if a <? maxAttempts o then
      ([EvFetch a; EvNew timeout_error;
        EvLog (retry_line o a "timeout");
        EvDelay (currentDelay st)],
       mkState (Some timeout_error) (times (currentDelay st) (backoffFactor o)),
       Abrupt Continue)
    else
      ([EvFetch a; EvNew timeout_error],
       mkState (Some timeout_error) (currentDelay st),
       Abrupt (Throw (ThrownResilientFetchError timeout_error))).
Proof.
  intros Hs Hr Hs' Ht. compute_iteration;
    destruct (a <? maxAttempts o); reflexivity.
Qed.

Lemma loop_run_after_return a st evs0 st1 r evs x :
  a <= maxAttempts o ->
  iteration o w a st = (evs0, st1, Abrupt (Return r)) ->
  loop_run o w a st evs x ->
  evs = evs0 /\ x = Returned r.
Proof.
  intros Hle Hit Hrun.
  eapply loop_run_deterministic; [|exact Hrun]. eapply run_return; eauto.
Qed.

Lemma next_iteration_of_run k run st post x :
  k < maxAttempts o ->
  loop_run o w (k + 1) st post x ->
  exit_outcome x (outcome run) ->
  next_iteration o k run post.
Proof.
  intros Hlt Hnext Hoc. unfold next_iteration.
  assert (Hle : k + 1 <= maxAttempts o) by lia.
  pose proof (loop_run_head _ _ _ _ _ _ Hle Hnext) as Hhead.
  destruct (signal_aborted (abortSignal o) (AtStart (k + 1))).
  - destruct Hhead as [-> ->]. cbn in Hoc. auto.
  - exact Hhead.
Qed.

End MorePaths.

(** X1. Success ends the call: when the request of an issued attempt
    resolves with a 2xx response, the call is fulfilled with that response
    and the trace ends with that request; no error is constructed, no delay
    is waited and no later attempt is issued. *)
Theorem success_ends_call o w k r :
  attempt_issued o w k = true ->
  settles (w k) = Resolves r ->
  ok r = true ->
  exists run pre,
    resilientFetch o w = Some run /\
    outcome run = Fulfilled r /\
    trace run = pre ++ [EvFetch k] /\
    (forall j, issued j (trace run) = true -> j <= k).
Proof.
  intros Hk Hr Hok.
  destruct (call_reaches o w k Hk)
    as (run & x & pre & st & evs & Hcall & Htr & Hpre & Hrun & _ & Hle & Hs
        & Hoc).
  pose proof (iteration_ok o w k st r Hs Hr Hok) as Hit.
  destruct (loop_run_after_return _ _ _ _ _ _ _ _ _ Hle Hit Hrun) as [-> ->].
  exists run, pre. cbn in Hoc. repeat split; auto.
  intros j Hj. rewrite Htr, issued_app in Hj.
  apply orb_true_iff in Hj. destruct Hj as [Hj | Hj].
  - apply Hpre in Hj. lia.
  - cbn in Hj. rewrite orb_false_r in Hj. apply Z.eqb_eq in Hj. lia.
Qed.

Lemma success_ends_call_witness :
  exists run pre,
    resilientFetch default_options busy_twice = Some run /\
    outcome run = Fulfilled (mkResponse 200) /\
    trace run = pre ++ [EvFetch 3] /\
    (forall j, issued j (trace run) = true -> j <= 3).
Proof.
  apply (success_ends_call default_options busy_twice 3 (mkResponse 200));
    reflexivity.
Defined.

(** X2. Timeout classification: when the request of an issued attempt is
    rejected, the caller's signal is not aborted and the timer of the attempt
    has fired, the failure is recorded as 'timeout' whatever the rejection
    value is; while attempts remain the call waits the current delay and goes
    on to the next iteration, and at the last attempt it throws the 'timeout'
    error. *)
Theorem timeout_classified o w k t :
  attempt_issued o w k = true ->
  settles (w k) = Rejects t ->
  signal_aborted (abortSignal o) (AtSettle k) = false ->
  timer_fired (w k) = true ->
  exists run pre,
    resilientFetch o w = Some run /\
    if k <? maxAttempts o then
      exists post,
        trace run =
          pre ++ [EvFetch k; EvNew timeout_error;
                  EvLog (retry_line o k "timeout");
                  EvDelay (grown (retryDelayMs o) (backoffFactor o) (k - 1))]
              ++ post /\
        next_iteration o k run post
    else
      trace run = pre ++ [EvFetch k; EvNew timeout_error] /\
      outcome run = Rejected (ThrownResilientFetchError timeout_error).
Proof.
  intros Hk Hrej Hab Htimer.
  destruct (call_reaches o w k Hk)
    as (run & x & pre & st & evs & Hcall & Htr & Hpre & Hrun & Hd & Hle & Hs
        & Hoc).
  exists run, pre. split; [exact Hcall|].
  pose proof (iteration_timeout o w k st t Hs Hrej Hab Htimer) as Hit.
  destruct (k <? maxAttempts o) eqn:Hlt.
  - destruct (loop_run_after_continue _ _ _ _ _ _ _ _ Hit Hrun)
      as (post & -> & Hnext).
    exists post. rewrite Htr, Hd. split; [reflexivity|].
    apply Z.ltb_lt in Hlt. eapply next_iteration_of_run; eauto.
  - destruct (loop_run_after_throw _ _ _ _ _ _ _ _ _ Hle Hit Hrun)
      as [-> ->].
    cbn in Hoc. auto.
Qed.

Lemma timeout_classified_witness :
  exists run pre,
    resilientFetch default_options
      (fun _ => mkObs (Rejects (ThrownError "Aborted")) true) = Some run /\
    trace run = pre ++ [EvFetch 3; EvNew timeout_error] /\
    outcome run = Rejected (ThrownResilientFetchError timeout_error).
Proof.
  apply (timeout_classified default_options
           (fun _ => mkObs (Rejects (ThrownError "Aborted")) true) 3
           (ThrownError "Aborted"));
    reflexivity.
Defined.

(** X3. A retryable status is retried while attempts remain: when an issued
    attempt that is not the last receives a non-2xx response whose status is
    in retryOnStatuses, the call constructs the 'server' error, waits the
    current delay and goes on to the next iteration, whatever the timer and
    the caller's signal read when the response is handled. *)
Theorem retryable_status_retried o w k r :
  attempt_issued o w k = true ->
  settles (w k) = Resolves r ->
  ok r = false ->
  In (resp_status r) (retryOnStatuses o) ->
  k < maxAttempts o ->
  exists run pre post,
    resilientFetch o w = Some run /\
    trace run =
      pre ++ [EvFetch k; EvNew (server_error r);
              EvLog (retry_line o k (show (resp_status r)));
              EvDelay (grown (retryDelayMs o) (backoffFactor o) (k - 1))]
          ++ post /\
    next_iteration o k run post.
Proof.
  intros Hk Hr Hok Hin Hlt.
  destruct (call_reaches o w k Hk)
    as (run & x & pre & st & evs & Hcall & Htr & Hpre & Hrun & Hd & Hle & Hs
        & Hoc).
  assert (Hltb : (k <? maxAttempts o) = true) by (apply Z.ltb_lt; exact Hlt).
  pose proof (iteration_retryable o w k st r Hs Hr Hok
                (retryable_In _ _ Hin) Hltb) as Hit.
  destruct (loop_run_after_continue _ _ _ _ _ _ _ _ Hit Hrun)
    as (post & -> & Hnext).
  exists run, pre, post. split; [exact Hcall|].
  rewrite Htr, Hd. split; [reflexivity|].
  eapply next_iteration_of_run; eauto.
Qed.

Lemma retryable_status_retried_witness :
  exists run pre post,
    resilientFetch default_options busy_twice = Some run /\
    trace run =
      pre ++ [EvFetch 2; EvNew (server_error (mkResponse 503));
              EvLog (retry_line default_options 2 (show 503));
              EvDelay (grown (retryDelayMs default_options)
                         (backoffFactor default_options) (2 - 1))]
          ++ post /\
    next_iteration default_options 2 run post.
Proof.
  apply (retryable_status_retried default_options busy_twice 2
           (mkResponse 503)).
  - reflexivity.
  - reflexivity.
  - reflexivity.
  - cbn. tauto.
  - reflexivity.
Defined.

Lemma aborted_after_monotone n :
  monotone (fun i => negb (instant_index i <=? n)).
Proof.
  intros i j Hij Hi. apply negb_true_iff in Hi. apply negb_true_iff.
  apply Z.leb_gt in Hi. apply Z.leb_gt. lia.
Qed.

(** X4. Once the caller's signal is aborted no further request is issued:
    for a signal that stays aborted, no attempt whose iteration starts at or
    after an instant at which the signal reads aborted has its request
    issued. *)
Theorem no_request_after_abort o w s i j :
  abortSignal o = Some s ->
  monotone s ->
  s i = true ->
  instant_index i <= instant_index (AtStart j) ->
  attempt_issued o w j = false.
Proof.
  intros Hsig Hmono Hi Hij.
  destruct (attempt_issued o w j) eqn:Hj; [|reflexivity].
  destruct (call_issued o w j Hj) as (run & x & _ & Hrun & Hin & _).
  destruct (loop_run_issued_range _ _ _ _ _ _ Hrun _ Hin) as (_ & Hs).
  rewrite Hsig in Hs. cbn in Hs.
  rewrite (Hmono i (AtStart j) Hij Hi) in Hs. discriminate.
Qed.

Lemma no_request_after_abort_witness :
  attempt_issued (with_signal aborted_mid_second)
    (always (Rejects (ThrownTypeError "Network request failed"))) 3 = false.
Proof.
  apply (no_request_after_abort (with_signal aborted_mid_second)
           (always (Rejects (ThrownTypeError "Network request failed")))
           aborted_mid_second (AtSettle 2) 3).
  - reflexivity.
  - apply aborted_after_monotone.
  - reflexivity.
  - cbv. discriminate.
Defined.

Section Schedule.

Variable o : ResilientFetchOptions.
Variable w : World.

Lemma backoff_schedule_head n a d f :
  firstn 1 (backoff_schedule n a d f) = [EvFetch a].
Proof. destruct n; reflexivity. Qed.

(** The requests and waits of a run of the loop are an initial part of the
    full schedule of the remaining attempts. *)
Lemma loop_run_schedule a0 st0 evs0' x0 :
  loop_run o w a0 st0 evs0' x0 ->
  exists m,
    schedule evs0' =
      firstn m (backoff_schedule (Z.to_nat (maxAttempts o - a0)) a0
                  (currentDelay st0) (backoffFactor o)).
Proof.
  intros H. by_cases H.
  - exists 0%nat. reflexivity.
  - destruct IH as (m & IH). exists (S (S m)).
    replace (Z.to_nat (maxAttempts o - a))
      with (S (Z.to_nat (maxAttempts o - (a + 1)))) by lia.
    cbn [backoff_schedule firstn].
    change (EvFetch a :: map EvNew news
              ++ [EvLog line; EvDelay (currentDelay st)])
      with ([EvFetch a] ++ map EvNew news
              ++ [EvLog line; EvDelay (currentDelay st)]).
    rewrite !schedule_app, schedule_news, IH, Hcd. reflexivity.
  - exists 1%nat. now rewrite backoff_schedule_head.
  - exists 0%nat. reflexivity.
  - exists 1%nat. rewrite backoff_schedule_head.
    change (EvFetch a :: map EvNew news) with ([EvFetch a] ++ map EvNew news).
    now rewrite schedule_app, schedule_news.
Qed.

End Schedule.

(** X5. Attempts are sequential and separated by the backoff delays: the
    requests and waits of any call, in order, are an initial part of
    request 1, wait retryDelayMs, request 2, wait retryDelayMs *
    backoffFactor, ..., request retries + 1. *)
Theorem call_schedule_prefix o w :
  exists run m,
    resilientFetch o w = Some run /\
    schedule (trace run) =
      firstn m (backoff_schedule (Z.to_nat (retries o)) 1
                  (retryDelayMs o) (backoffFactor o)).
Proof.
  destruct (resilientFetch_cases o w) as (evs & x & _ & Hrun & Hcall).
  destruct (loop_run_schedule _ _ _ _ _ _ Hrun) as (m & Hm).
  replace (maxAttempts o - 1) with (retries o) in Hm
    by (unfold maxAttempts; lia).
  destruct x as [st | r | t].
  - destruct Hcall as (_ & _ & Hcall). eexists _, 0%nat.
    split; [exact Hcall | reflexivity].
  - eexists _, m. split; [exact Hcall | exact Hm].
  - eexists _, m. split; [exact Hcall | exact Hm].
Qed.

Section Exhaustion.

Variable o : ResilientFetchOptions.
Variable w : World.

(** A loop in which every iteration before the last continues and the last
    one throws after its request: all the attempts are made, with the waits
    of the full schedule between them. *)
Lemma exhausting_run t :
  (forall a st, 1 <= a < maxAttempts o ->
     exists evs st1, iteration o w a st = (evs, st1, Abrupt Continue)) ->
  (forall st,
     signal_aborted (abortSignal o) (AtStart (maxAttempts o)) = false /\
     exists evs st1,
       iteration o w (maxAttempts o) st = (evs, st1, Abrupt (Throw t))) ->
  forall (n : nat) a st,
    1 <= a ->
    maxAttempts o - a = Z.of_nat n ->
    exists evs,
      loop_run o w a st evs (Threw t) /\
      schedule evs = backoff_schedule n a (currentDelay st) (backoffFactor o) /\
      fetch_count evs = S n.
Proof.
  intros Hcont Hlast.
  induction n as [|n IH]; intros a st Ha Hn.
  - assert (a = maxAttempts o) by lia. subst a.
    destruct (Hlast st) as (Hs & evs & st1 & Hit).
    exists evs. split; [eapply run_throw; [lia | exact Hit]|].
    apply iteration_throw_inv in Hit.
    destruct Hit as [(Hs' & _) | (_ & news & e & _ & -> & _)];
      [congruence|].
    change (EvFetch (maxAttempts o) :: map EvNew news)
      with ([EvFetch (maxAttempts o)] ++ map EvNew news).
    rewrite schedule_app, fetch_count_app, schedule_news, fetch_count_news.
    split; reflexivity.
  - destruct (Hcont a st) as (evs0 & st1 & Hit); [lia|].
    destruct (IH (a + 1) st1) as (evs & Hrun & Hsched & Hcount);
      [lia | lia |].
    exists (evs0 ++ evs). split; [eapply run_continue; eauto; lia|].
    apply iteration_continue_inv in Hit.
    destruct Hit as (_ & _ & Hcd & news & line & _ & ->).
    change (EvFetch a :: map EvNew news
              ++ [EvLog line; EvDelay (currentDelay st)])
      with ([EvFetch a] ++ map EvNew news
              ++ [EvLog line; EvDelay (currentDelay st)]).
    rewrite !schedule_app, !fetch_count_app, schedule_news, fetch_count_news,
      Hsched, Hcount, Hcd.
    split; reflexivity.
Qed.

(** The call of which the loop is such a run. *)
Lemma exhausting_call t :
  0 <= retries o ->
  (forall a st, 1 <= a < maxAttempts o ->
     exists evs st1, iteration o w a st = (evs, st1, Abrupt Continue)) ->
  (forall st,
     signal_aborted (abortSignal o) (AtStart (maxAttempts o)) = false /\
     exists evs st1,
       iteration o w (maxAttempts o) st = (evs, st1, Abrupt (Throw t))) ->
  exists run,
    resilientFetch o w = Some run /\
    outcome run = Rejected t /\
    schedule (trace run)
      = backoff_schedule (Z.to_nat (retries o)) 1
          (retryDelayMs o) (backoffFactor o) /\
    fetch_count (trace run) = Z.to_nat (retries o + 1).
Proof.
  intros Hn Hcont Hlast.
  destruct (exhausting_run t Hcont Hlast (Z.to_nat (retries o)) 1
              (initial_state o))
    as (evs & Hrun & Hsched & Hcount);
    [lia | unfold maxAttempts; lia |].
  exists (mkRun evs (Rejected t)).
  split; [eapply call_of_loop_run; [exact Hrun | reflexivity]|].
  cbn [trace outcome]. repeat split; auto.
  rewrite Hcount. lia.
Qed.

End Exhaustion.

(** X6. Persistent timeouts exhaust the budget: if the request of every
    attempt is rejected after the timer of the attempt has fired and the
    caller's signal is never aborted, the call makes exactly retries + 1
    attempts, waits the growing delay between consecutive ones and throws
    the 'timeout' error. *)
Theorem timeout_exhaustion o w :
  0 <= retries o ->
  (forall i, signal_aborted (abortSignal o) i = false) ->
  (forall k, 1 <= k <= maxAttempts o ->
     timer_fired (w k) = true /\ exists t, settles (w k) = Rejects t) ->
  exists run,
    resilientFetch o w = Some run /\
    outcome run = Rejected (ThrownResilientFetchError timeout_error) /\
    code timeout_error = timeout /\
    schedule (trace run)
      = backoff_schedule (Z.to_nat (retries o)) 1
          (retryDelayMs o) (backoffFactor o) /\
    fetch_count (trace run) = Z.to_nat (retries o + 1).
Proof.
  intros Hn Hsig Hw.
  destruct (exhausting_call o w
              (ThrownResilientFetchError timeout_error) Hn)
    as (run & Hcall & Hout & Hsched & Hcount).
  - intros a st Ha. destruct (Hw a) as (Htimer & t & Hrej); [lia|].
    rewrite (iteration_timeout o w a st t (Hsig _) Hrej (Hsig _) Htimer).
    replace (a <? maxAttempts o) with true by (symmetry; apply Z.ltb_lt; lia).
    eauto.
  - intros st. split; [apply Hsig|].
    destruct (Hw (maxAttempts o)) as (Htimer & t & Hrej);
      [unfold maxAttempts; lia|].
    rewrite (iteration_timeout o w _ st t (Hsig _) Hrej (Hsig _) Htimer).
    rewrite Z.ltb_irrefl. eauto.
  - exists run. auto.
Qed.

Lemma timeout_exhaustion_witness :
  exists run,
    resilientFetch default_options
      (fun _ => mkObs (Rejects (ThrownError "Aborted")) true) = Some run /\
    outcome run = Rejected (ThrownResilientFetchError timeout_error) /\
    code timeout_error = timeout /\
    schedule (trace run)
      = backoff_schedule (Z.to_nat (retries default_options)) 1
          (retryDelayMs default_options) (backoffFactor default_options) /\
    fetch_count (trace run) = Z.to_nat (retries default_options + 1).
Proof.
  apply (timeout_exhaustion default_options
           (fun _ => mkObs (Rejects (ThrownError "Aborted")) true)).
  - cbv. discriminate.
  - intros i. reflexivity.
  - intros k _. split; [reflexivity|]. eexists. reflexivity.
Defined.

(** X7. Persistent transport failures exhaust the budget: if the request of
    every attempt is rejected with a TypeError, no timer has fired and the
    caller's signal is never aborted, the call makes exactly retries + 1
    attempts, waits the growing delay between consecutive ones and throws
    the 'network' error. *)
Theorem network_exhaustion o w :
  0 <= retries o ->
  (forall i, signal_aborted (abortSignal o) i = false) ->
  (forall k, 1 <= k <= maxAttempts o ->
     timer_fired (w k) = false /\
     exists msg, settles (w k) = Rejects (ThrownTypeError msg)) ->
  exists run,
    resilientFetch o w = Some run /\
    outcome run = Rejected (ThrownResilientFetchError network_error) /\
    code network_error = network /\
    schedule (trace run)
      = backoff_schedule (Z.to_nat (retries o)) 1
          (retryDelayMs o) (backoffFactor o) /\
    fetch_count (trace run) = Z.to_nat (retries o + 1).
Proof.
  intros Hn Hsig Hw.
  destruct (exhausting_call o w
              (ThrownResilientFetchError network_error) Hn)
    as (run & Hcall & Hout & Hsched & Hcount).
  - intros a st Ha. destruct (Hw a) as (Htimer & msg & Hrej); [lia|].
    rewrite (iteration_type_error o w a st msg (Hsig _) Hrej (Hsig _) Htimer).
    replace (a <? maxAttempts o) with true by (symmetry; apply Z.ltb_lt; lia).
    eauto.
  - intros st. split; [apply Hsig|].
    destruct (Hw (maxAttempts o)) as (Htimer & msg & Hrej);
      [unfold maxAttempts; lia|].
    rewrite (iteration_type_error o w _ st msg (Hsig _) Hrej (Hsig _) Htimer).
    rewrite Z.ltb_irrefl. eauto.
  - exists run. auto.
Qed.

Lemma network_exhaustion_witness :
  exists run,
    resilientFetch (mkOptions None (Some 1) None None None None)
      (always (Rejects (ThrownTypeError "Network request failed")))
      = Some run /\
    outcome run = Rejected (ThrownResilientFetchError network_error) /\
    code network_error = network /\
    schedule (trace run) = [EvFetch 1; EvDelay (num 1500); EvFetch 2] /\
    fetch_count (trace run) = 2%nat.
Proof.
  apply (network_exhaustion (mkOptions None (Some 1) None None None None)
           (always (Rejects (ThrownTypeError "Network request failed")))).
  - cbv. discriminate.
  - intros i. reflexivity.
  - intros k _. split; [reflexivity|]. eexists. reflexivity.
Defined.

(** * Properties of the callers *)

(** A call is fulfilled only with an ok response. *)
Lemma call_fulfilled_ok o w run r :
  resilientFetch o w = Some run ->
  outcome run = Fulfilled r ->
  ok r = true.
Proof.
  intros Hcall Hout.
  destruct (resilientFetch_cases o w) as (evs & x & _ & Hrun & Hcase).
  destruct x as [st | r' | t].
  - destruct Hcase as (_ & _ & Hcase). rewrite Hcase in Hcall.
    inversion Hcall; subst. discriminate.
  - rewrite Hcase in Hcall. inversion Hcall; subst. cbn in Hout.
    inversion Hout; subst.
    now destruct (loop_run_returned _ _ _ _ _ _ Hrun).
  - rewrite Hcase in Hcall. inversion Hcall; subst. discriminate.
Qed.

Lemma call_total o w : exists run, resilientFetch o w = Some run.
Proof.
  destruct (resilientFetch_cases o w) as (evs & x & _ & _ & Hcase).
  destruct x as [st | r | t]; [destruct Hcase as (_ & _ & Hcase)| |]; eauto.
Qed.

Lemma net_events_app tr1 tr2 :
  net_events (tr1 ++ tr2) = net_events tr1 ++ net_events tr2.
Proof.
  induction tr1 as [|[ev| | | | |] tr1 IH]; cbn; now rewrite ?IH.
Qed.

Lemma net_events_net tr : net_events (map SvNet tr) = tr.
Proof. induction tr as [|ev tr IH]; cbn; [reflexivity | now rewrite IH]. Qed.

Lemma api_key_empty env :
  (api_key_of env =? "")%string = true <->
  truthy_string (EXPO_PUBLIC_PORTKEY_API_KEY env) = false /\
  truthy_string (PORTKEY_API_KEY env) = false.
Proof.
  unfold api_key_of.
  destruct (truthy_string (EXPO_PUBLIC_PORTKEY_API_KEY env)) eqn:H1.
  - rewrite H1. destruct (EXPO_PUBLIC_PORTKEY_API_KEY env) as [s|];
      [|discriminate]. cbn in *. apply negb_true_iff in H1. rewrite H1.
    split; [discriminate | intros [? _]; discriminate].
  - destruct (truthy_string (PORTKEY_API_KEY env)) eqn:H2.
    + destruct (PORTKEY_API_KEY env) as [s|]; [|discriminate]. cbn in *.
      apply negb_true_iff in H2. rewrite H2.
      split; [discriminate | intros [_ ?]; discriminate].
    + split; auto.
Qed.

Section ServiceProperties.

Variable Num : Type.
Variable num_truthy : Num -> bool.
Variable num_show : Num -> string.
Variable null_read_error : string -> string.
Variable Parsed : Type.
Variable parseJsonResponse : string -> option Parsed.


(** The three ways through [makePortkeyRequest]. *)
Lemma request_cases env signal w body :
  ((api_key_of env =? "")%string = true /\
   makePortkeyRequest num_truthy num_show null_read_error
     env signal w body =
     Some ([key_warning], Raise (ThrownError key_not_configured)))
  \/
  ((api_key_of env =? "")%string = false /\
   exists run,
     resilientFetch (portkey_options signal) w = Some run /\
     match outcome run with
     | Fulfilled r =>
         ok r = true /\
         makePortkeyRequest num_truthy num_show null_read_error
           env signal w body =
           Some (map SvNet (trace run) ++ [SvJson],
                 text_of_body num_truthy num_show null_read_error body)
     | Rejected t =>
         makePortkeyRequest num_truthy num_show null_read_error
           env signal w body =
           Some (map SvNet (trace run), Raise (user_error t))
     end).
Proof.
  unfold makePortkeyRequest, getApiKey.
  destruct (api_key_of env =? "")%string eqn:Hkey.
  - left. split; [reflexivity|]. cbn. rewrite Hkey. reflexivity.
  - right. split; [reflexivity|].
    destruct (call_total (portkey_options signal) w) as (run & Hcall).
    exists run. split; [exact Hcall|].
    unfold await_resilientFetch. rewrite Hcall.
    destruct (outcome run) as [r | t] eqn:Hout.
    + pose proof (call_fulfilled_ok _ _ _ _ Hcall Hout) as Hok.
      split; [exact Hok|].
      cbn. rewrite Hkey. cbn. rewrite Hok. cbn.
      unfold text_of_body, text_of_data.
      destruct (body_json body) as [data | err]; cbn; [|reflexivity].
      destruct (raw_content null_read_error data) as [rc | err]; cbn;
        [|reflexivity].
      destruct (content_text num_truthy num_show null_read_error rc);
        cbn; rewrite ?app_nil_r; reflexivity.
    + cbn. rewrite Hkey. cbn. rewrite app_nil_r. reflexivity.
Qed.

Lemma request_total env signal w body :
  exists evs res, makePortkeyRequest num_truthy num_show null_read_error
    env signal w body = Some (evs, res).
Proof.
  destruct (request_cases env signal w body)
    as [(_ & Hreq) | (_ & run & _ & Hcase)]; [eauto|].
  destruct (outcome run); [destruct Hcase|]; eauto.
Qed.

(** X8. [makePortkeyRequest] never reads the body of the response as text:
    its branch for a response that is not ok cannot be reached, because
    [resilientFetch] is fulfilled only with ok responses. *)
Theorem request_never_reads_text env signal w body :
  exists evs res,
    makePortkeyRequest num_truthy num_show null_read_error
      env signal w body = Some (evs, res) /\
    ~ In SvText evs /\
    (forall ev, In (SvNet ev) evs ->
       exists run, resilientFetch (portkey_options signal) w = Some run /\
                   In ev (trace run)).
Proof.
  destruct (request_cases env signal w body)
    as [(_ & Hreq) | (_ & run & Hcall & Hcase)].
  - eexists _, _. split; [exact Hreq|]. split.
    + intros [H | []]. discriminate.
    + intros ev [H | []]. discriminate.
  - destruct (outcome run) as [r | t].
    + destruct Hcase as (_ & Hreq). eexists _, _. split; [exact Hreq|]. split.
      * intros H. apply in_app_or in H. destruct H as [H | [H | []]].
        -- apply in_map_iff in H. destruct H as (ev & Hev & _). discriminate.
        -- discriminate.
      * intros ev H. apply in_app_or in H. destruct H as [H | [H | []]].
        -- apply in_map_iff in H. destruct H as (ev' & Hev & Hin).
           inversion Hev; subst. eauto.
        -- discriminate.
    + eexists _, _. split; [exact Hcase|]. split.
      * intros H. apply in_map_iff in H. destruct H as (ev & Hev & _).
        discriminate.
      * intros ev H. apply in_map_iff in H. destruct H as (ev' & Hev & Hin).
        inversion Hev; subst. eauto.
Qed.

(** X9. The budget of the service: whatever the network does, a call of
    [makePortkeyRequest] issues at most three requests, and its requests and
    waits are an initial part of request 1, wait 1500, request 2, wait 3000,
    request 3. *)
Theorem request_budget env signal w body :
  exists evs res m,
    makePortkeyRequest num_truthy num_show null_read_error
      env signal w body = Some (evs, res) /\
    schedule (net_events evs) =
      firstn m [EvFetch 1; EvDelay (num 1500); EvFetch 2; EvDelay (num 3000);
                EvFetch 3] /\
    (fetch_count (net_events evs) <= 3)%nat.
Proof.
  destruct (request_cases env signal w body)
    as [(_ & Hreq) | (_ & run & Hcall & Hcase)].
  - eexists _, _, 0%nat. split; [exact Hreq|]. cbn. split; [reflexivity | lia].
  - assert (Hnet : exists m,
              schedule (trace run) =
                firstn m [EvFetch 1; EvDelay (num 1500); EvFetch 2;
                          EvDelay (num 3000); EvFetch 3] /\
              (fetch_count (trace run) <= 3)%nat).
    { destruct (resilientFetch_cases (portkey_options signal) w)
        as (evs & x & _ & Hrun & Hcase').
      destruct (loop_run_schedule _ _ _ _ _ _ Hrun) as (m & Hm).
      pose proof (loop_run_fetch_count _ _ _ _ _ _ Hrun) as Hcount.
      cbn in Hm, Hcount.
      destruct x as [st | r | t].
      - destruct Hcase' as (Hneg & _). cbv in Hneg. discriminate.
      - rewrite Hcase' in Hcall. inversion Hcall; subst. cbn [trace].
        exists m. split; [exact Hm | exact Hcount].
      - rewrite Hcase' in Hcall. inversion Hcall; subst. cbn [trace].
        exists m. split; [exact Hm | exact Hcount]. }
    destruct Hnet as (m & Hm & Hcount).
    destruct (outcome run) as [r | t].
    + destruct Hcase as (_ & Hreq). eexists _, _, m. split; [exact Hreq|].
      rewrite net_events_app, net_events_net. cbn [net_events].
      rewrite app_nil_r. auto.
    + eexists _, _, m. split; [exact Hcase|].
      rewrite net_events_net. auto.
Qed.

(** An analysis, from what its request gave. *)
Lemma analysis_of_request label env signal w body evs res :
  makePortkeyRequest num_truthy num_show null_read_error
    env signal w body = Some (evs, res) ->
  analyze num_truthy num_show null_read_error parseJsonResponse
    label env signal w body =
    match res with
    | Value text =>
        if truthy_string text then
          match parseJsonResponse (with_default text "") with
          | Some r => Some (evs, Value (FromResponse r))
          | None =>
              Some (evs ++ [SvError "JSON parsing failed:"
                              (Some (LoggedText (with_default text "")))],
                    Value (Built (failure "Failed to parse AI response")))
          end
        else Some (evs, Value (Built (failure "No response received from AI")))
    | Raise t =>
        if is_aborted t then
          Some (evs, Value (Built (failure "Analysis cancelled")))
        else
          Some (evs ++ [SvError label (Some (LoggedThrown t))],
                Value (Built (failure (message_or "Unknown error occurred" t))))
    end.
Proof.
  intros Hreq. unfold analyze. rewrite Hreq.
  destruct res as [text | t]; cbn.
  - destruct (truthy_string text); cbn; [|now rewrite app_nil_r].
    destruct (parseJsonResponse (with_default text "")); cbn;
      [now rewrite app_nil_r | reflexivity].
  - destruct (is_aborted t); cbn; [now rewrite app_nil_r | reflexivity].
Qed.

(** X10. An analysis never rejects: [analyzeFood] and [analyzeFoodFromText]
    always resolve, either with what [parseJsonResponse] returned for a
    non-empty text of the response, or with a failure result that has
    success = false, no items, zero calories and an error message. *)
Theorem analysis_never_rejects label env signal w body :
  exists evs a,
    analyze num_truthy num_show null_read_error parseJsonResponse
      label env signal w body = Some (evs, Value a) /\
    match a with
    | FromResponse r =>
        exists evs' text,
          makePortkeyRequest num_truthy num_show null_read_error
            env signal w body = Some (evs', Value (Some text)) /\
          text <> "" /\ parseJsonResponse text = Some r
    | Built res =>
        success res = false /\ items res = [] /\ totalCalories res = 0 /\
        error res <> None
    end.
Proof.
  destruct (request_total env signal w body)
    as (evs & res & Hreq).
  rewrite (analysis_of_request label _ _ _ _ _ _ Hreq).
  destruct res as [text | t].
  - destruct (truthy_string text) eqn:Htext.
    + destruct text as [text|]; [|discriminate]. cbn [with_default].
      destruct (parseJsonResponse text) as [r|] eqn:Hparse.
      * eexists _, _. split; [reflexivity|]. exists evs, text.
        split; [exact Hreq|]. split; [|exact Hparse].
        intros ->. discriminate.
      * eexists _, _. split; [reflexivity|]. cbn. repeat split. discriminate.
    + eexists _, _. split; [reflexivity|]. cbn. repeat split. discriminate.
  - destruct (is_aborted t);
      (eexists _, _; split; [reflexivity|]; cbn; repeat split; discriminate).
Qed.

(** A ResilientFetchError of the network client, as the analysis reports
    it. *)
Lemma analysis_of_rejection label env signal w body run e :
  (api_key_of env =? "")%string = false ->
  resilientFetch (portkey_options signal) w = Some run ->
  outcome run = Rejected (ThrownResilientFetchError e) ->
  exists evs,
    analyze num_truthy num_show null_read_error parseJsonResponse
      label env signal w body =
      Some (evs, Value (Built (failure (user_message e)))) /\
    net_events evs = trace run /\
    (code e = aborted -> evs = map SvNet (trace run)).
Proof.
  intros Hkey Hcall Hout.
  destruct (request_cases env signal w body)
    as [(Hkey' & _) | (_ & run' & Hcall' & Hcase)]; [congruence|].
  rewrite Hcall in Hcall'. inversion Hcall'; subst run'. rewrite Hout in Hcase.
  rewrite (analysis_of_request label _ _ _ _ _ _ Hcase).
  unfold user_error, user_message, is_aborted.
  destruct (code e) eqn:Hcode; cbn; rewrite ?Hcode;
    (eexists; split; [reflexivity|]; split;
     [rewrite ?net_events_app, net_events_net; cbn; now rewrite ?app_nil_r
     | try discriminate; reflexivity]).
Qed.

(** X11. Failures of the network client reach the user as failure results:
    when the key is configured and the call of [resilientFetch] is rejected
    with a ResilientFetchError, the analysis resolves with the failure result
    whose message is 'Analysis cancelled' for code 'aborted', the
    check-your-connection messages for 'timeout' and 'network'/'offline', and
    'Server error (status). Please try again later.' for 'server'; the
    error's own message is not shown. *)
Theorem failure_reaches_user label env signal w body run e :
  (api_key_of env =? "")%string = false ->
  resilientFetch (portkey_options signal) w = Some run ->
  outcome run = Rejected (ThrownResilientFetchError e) ->
  exists evs,
    analyze num_truthy num_show null_read_error parseJsonResponse
      label env signal w body =
      Some (evs, Value (Built (failure (user_message e)))) /\
    net_events evs = trace run.
Proof.
  intros Hkey Hcall Hout.
  destruct (analysis_of_rejection label env signal w body run e
              Hkey Hcall Hout) as (evs & Hres & Hnet & _).
  exists evs. auto.
Qed.

(** A rejected request under an aborted signal, as a call. *)
Lemma call_rejects_aborted o w' k t :
  attempt_issued o w' k = true ->
  settles (w' k) = Rejects t ->
  signal_aborted (abortSignal o) (AtSettle k) = true ->
  exists run,
    resilientFetch o w' = Some run /\
    outcome run = Rejected (ThrownResilientFetchError aborted_error).
Proof.
  intros Hk Hrej Hab.
  destruct (call_reaches o w' k Hk)
    as (run & x & pre & st & evs & Hcall & Htr & Hpre & Hrun & _ & Hle & Hs
        & Hoc).
  pose proof (iteration_rejects_aborted o w' k st t Hs Hrej Hab) as Hit.
  destruct (loop_run_after_throw _ _ _ _ _ _ _ _ _ Hle Hit Hrun) as [-> ->].
  exists run. cbn in Hoc. auto.
Qed.

(** X12. Cancellation is reported gracefully: when the key is configured and
    the caller's signal reads aborted at the top of the first iteration, or
    when a request fails while it reads aborted, the analysis resolves with
    the failure result 'Analysis cancelled' and logs no error. *)
Theorem cancelled_analysis label env signal w body :
  (api_key_of env =? "")%string = false ->
  signal_aborted signal (AtStart 1) = true
  \/ (exists k t,
        attempt_issued (portkey_options signal) w k = true /\
        settles (w k) = Rejects t /\
        signal_aborted signal (AtSettle k) = true) ->
  exists evs,
    analyze num_truthy num_show null_read_error parseJsonResponse
      label env signal w body =
      Some (evs, Value (Built (failure "Analysis cancelled"))) /\
    (forall l x, ~ In (SvError l x) evs) /\
    (signal_aborted signal (AtStart 1) = true ->
     net_events evs = [EvNew aborted_error]).
Proof.
  intros Hkey Hcancel.
  assert (Hrun : exists run,
            resilientFetch (portkey_options signal) w = Some run /\
            outcome run = Rejected (ThrownResilientFetchError aborted_error)).
  { destruct Hcancel as [Hs | (k & t & Hk & Hrej & Hab)].
    - eexists. split; [apply call_aborted_at_start|reflexivity].
      + cbv. discriminate.
      + exact Hs.
    - apply (call_rejects_aborted _ _ k t Hk Hrej Hab). }
  destruct Hrun as (run & Hcall & Hout).
  destruct (analysis_of_rejection label env signal w body run aborted_error
              Hkey Hcall Hout) as (evs & Hres & Hnet & Hevs).
  exists evs. split; [exact Hres|]. split.
  - intros l x Hin. rewrite (Hevs eq_refl) in Hin.
    apply in_map_iff in Hin. destruct Hin as (ev & Hev & _). discriminate.
  - intros Hs. rewrite Hnet.
    rewrite call_aborted_at_start in Hcall; [|cbv; discriminate | exact Hs].
    inversion Hcall. reflexivity.
Qed.

(** X13. Without an API key nothing is requested: when neither
    EXPO_PUBLIC_PORTKEY_API_KEY nor PORTKEY_API_KEY is set to a non-empty
    string, an analysis warns, calls neither [resilientFetch] nor the
    issuer, logs the configuration error and resolves with it as a failure
    result; [testConnection] resolves with false. *)
Theorem missing_key_no_request label env signal w body :
  truthy_string (EXPO_PUBLIC_PORTKEY_API_KEY env) = false ->
  truthy_string (PORTKEY_API_KEY env) = false ->
  analyze num_truthy num_show null_read_error parseJsonResponse
    label env signal w body =
    Some ([key_warning;
           SvError label (Some (LoggedThrown (ThrownError key_not_configured)))],
          Value (Built (failure key_not_configured))) /\
  testConnection num_truthy num_show null_read_error env w body =
    Some ([key_warning;
           SvError "Connection test failed:"
             (Some (LoggedThrown (ThrownError key_not_configured)))],
          Value false).
Proof.
  intros H1 H2.
  assert (Hkey : (api_key_of env =? "")%string = true)
    by (apply api_key_empty; auto).
  split.
  - destruct (request_cases env signal w body)
      as [(_ & Hreq) | (Hkey' & _)]; [|congruence].
    rewrite (analysis_of_request label _ _ _ _ _ _ Hreq). reflexivity.
  - unfold testConnection.
    destruct (request_cases env None w body)
      as [(_ & Hreq) | (Hkey' & _)]; [|congruence].
    rewrite Hreq. reflexivity.
Qed.

(** X14. A response without a first choice is no response: when the key is
    configured, the call is fulfilled and the parsed body is not null but
    has no first choice (choices missing, null or empty), the analysis
    resolves with the failure result 'No response received from AI'. *)
Theorem no_choice_no_response label env signal w body run r data :
  (api_key_of env =? "")%string = false ->
  resilientFetch (portkey_options signal) w = Some run ->
  outcome run = Fulfilled r ->
  body_json body = Value data ->
  data <> JNull ->
  optional (property "choices" data) first_element = None ->
  analyze num_truthy num_show null_read_error parseJsonResponse
    label env signal w body =
    Some (map SvNet (trace run) ++ [SvJson],
          Value (Built (failure "No response received from AI"))).
Proof.
  intros Hkey Hcall Hout Hbody Hnull Hchoice.
  destruct (request_cases env signal w body)
    as [(Hkey' & _) | (_ & run' & Hcall' & Hcase)]; [congruence|].
  rewrite Hcall in Hcall'. inversion Hcall'; subst run'. rewrite Hout in Hcase.
  destruct Hcase as (_ & Hreq).
  rewrite (analysis_of_request label _ _ _ _ _ _ Hreq).
  unfold text_of_body, text_of_data, raw_content. rewrite Hbody.
  destruct data; try contradiction; rewrite Hchoice; reflexivity.
Qed.

Lemma map_parts_text parts texts :
  Forall2 text_part parts texts ->
  map_parts num_truthy null_read_error parts = Value (map JString texts).
Proof.
  induction 1 as [|part s parts texts Hpart _ IH]; [reflexivity|].
  cbn [map_parts map]. rewrite IH.
  destruct Hpart as [s | props s Hs]; [reflexivity|].
  unfold part_text, property. rewrite Hs. cbn [truthy].
  destruct s; reflexivity.
Qed.

Lemma join_empty_strings texts :
  join_empty num_show (map (@JString Num) texts)
  = fold_right String.append "" texts.
Proof.
  induction texts as [|s texts IH]; [reflexivity|].
  cbn [map join_empty fold_right to_string]. now rewrite IH.
Qed.

(** X15. The text of the response is the content of the first choice's
    message: when the key is configured, the call is fulfilled and that
    content is a string, or an array of parts each of which is a string or
    an object with a string [text], [makePortkeyRequest] returns the string,
    respectively the texts of the parts concatenated in order. *)
Theorem request_returns_content env signal w body run r data content s :
  (api_key_of env =? "")%string = false ->
  resilientFetch (portkey_options signal) w = Some run ->
  outcome run = Fulfilled r ->
  body_json body = Value data ->
  raw_content null_read_error data = Value (Some content) ->
  content_says content s ->
  makePortkeyRequest num_truthy num_show null_read_error
    env signal w body =
    Some (map SvNet (trace run) ++ [SvJson], Value (Some s)).
Proof.
  intros Hkey Hcall Hout Hbody Hraw Hsays.
  destruct (request_cases env signal w body)
    as [(Hkey' & _) | (_ & run' & Hcall' & Hcase)]; [congruence|].
  rewrite Hcall in Hcall'. inversion Hcall'; subst run'. rewrite Hout in Hcase.
  destruct Hcase as (_ & Hreq). rewrite Hreq. do 2 f_equal.
  unfold text_of_body, text_of_data. rewrite Hbody, Hraw.
  destruct Hsays as [-> | (parts & texts & -> & Hparts & ->)];
    [reflexivity|].
  cbn [content_text]. rewrite (map_parts_text _ _ Hparts).
  now rewrite join_empty_strings.
Qed.

(** X16. [testConnection] never rejects, and resolves with true exactly when
    the request made without a signal returned a text that includes
    'connected'. *)
Theorem connection_test_result env w body :
  exists evs b,
    testConnection num_truthy num_show null_read_error env w body
      = Some (evs, Value b) /\
    (b = true <->
     exists evs' s,
       makePortkeyRequest num_truthy num_show null_read_error
         env None w body = Some (evs', Value (Some s)) /\
       includes "connected" s = true).
Proof.
  destruct (request_total env None w body) as (evs & res & Hreq).
  unfold testConnection. rewrite Hreq.
  destruct res as [[s|] | t]; cbn.
  - eexists _, _. split; [reflexivity|]. split.
    + intros Hb. eauto.
    + intros (evs' & s' & Heq & Hinc). inversion Heq; subst. exact Hinc.
  - eexists _, _. split; [reflexivity|]. split; [discriminate|].
    intros (evs' & s' & Heq & _). discriminate.
  - eexists _, _. split; [reflexivity|]. split; [discriminate|].
    intros (evs' & s' & Heq & _). discriminate.
Qed.

End ServiceProperties.

(** X17. The upload check fails open: [isNetworkSuitableForUpload] never
    rejects, and resolves with true exactly when the probe of the network
    state failed or reported both isConnected and isInternetReachable as
    true; a flag the probe leaves out counts as false. *)
Theorem upload_check_fails_open
    (NetworkStateType : Type) (UNKNOWN : NetworkStateType)
    (probe : Result (ProbedState NetworkStateType)) :
  exists evs b,
    isNetworkSuitableForUpload UNKNOWN probe = Some (evs, Value b) /\
    (b = true <->
     (exists error, probe = Raise error) \/
     (exists state,
        probe = Value state /\
        probed_isConnected state = Some true /\
        probed_isInternetReachable state = Some true)).
Proof.
  destruct probe as [[c i t] | error]; cbn.
  - eexists _, _. split; [reflexivity|]. split.
    + intros Hb. right. exists (mkProbed c i t). split; [reflexivity|].
      cbn. destruct c as [[]|], i as [[]|]; cbn in Hb; try discriminate; auto.
    + intros [(e & He) | (st & Hst & Hc & Hi)]; [discriminate|].
      inversion Hst; subst. cbn in Hc, Hi. rewrite Hc, Hi. reflexivity.
  - eexists _, _. split; [reflexivity|]. split; [eauto | reflexivity].
Qed.

(** ** Witnesses for the properties of the callers *)

Lemma failure_reaches_user_witness :
  exists evs,
    analyzeFood nonzero show null_read accept_text configured_env None
      (fun _ => mkObs (Rejects (ThrownError "Aborted")) true)
      (body_of no_choices)
    = Some (evs, Value (Built (failure taking_too_long))).
Proof.
  assert (Hcall : exists run,
            resilientFetch (portkey_options None)
              (fun _ => mkObs (Rejects (ThrownError "Aborted")) true)
            = Some run /\
            outcome run = Rejected (ThrownResilientFetchError timeout_error))
    by (eexists; split; reflexivity).
  destruct Hcall as (run & Hcall & Hout).
  destruct (failure_reaches_user Z nonzero show null_read string accept_text
              "Portkey API error:" configured_env None _
              (body_of no_choices) run timeout_error eq_refl Hcall Hout)
    as (evs & Hres & _).
  exists evs. exact Hres.
Defined.

Lemma cancelled_analysis_witness :
  exists evs,
    analyzeFoodFromText nonzero show null_read accept_text configured_env
      (Some already_aborted) busy_twice (body_of no_choices)
    = Some (evs, Value (Built (failure "Analysis cancelled"))) /\
    (forall l x, ~ In (SvError l x) evs) /\
    (signal_aborted (Some already_aborted) (AtStart 1) = true ->
     net_events evs = [EvNew aborted_error]).
Proof.
  apply (cancelled_analysis Z nonzero show null_read string accept_text
           "Portkey text analysis error:" configured_env
           (Some already_aborted) busy_twice (body_of no_choices)).
  - reflexivity.
  - left. reflexivity.
Defined.

Lemma missing_key_no_request_witness :
  analyzeFood nonzero show null_read accept_text unconfigured_env None
    busy_twice (body_of no_choices)
  = Some ([key_warning;
           SvError "Portkey API error:"
             (Some (LoggedThrown (ThrownError key_not_configured)))],
          Value (Built (failure key_not_configured))) /\
  testConnection nonzero show null_read unconfigured_env busy_twice
    (body_of no_choices)
  = Some ([key_warning;
           SvError "Connection test failed:"
             (Some (LoggedThrown (ThrownError key_not_configured)))],
          Value false).
Proof.
  apply (missing_key_no_request Z nonzero show null_read string accept_text
           "Portkey API error:" unconfigured_env None busy_twice
           (body_of no_choices));
    reflexivity.
Defined.

Lemma no_choice_no_response_witness :
  exists evs,
    analyzeFood nonzero show null_read accept_text configured_env None
      busy_twice (body_of no_choices)
    = Some (evs, Value (Built (failure "No response received from AI"))).
Proof.
  assert (Hcall : exists run,
            resilientFetch (portkey_options None) busy_twice = Some run /\
            outcome run = Fulfilled (mkResponse 200))
    by (eexists; split; reflexivity).
  destruct Hcall as (run & Hcall & Hout).
  exists (map SvNet (trace run) ++ [SvJson]).
  apply (no_choice_no_response Z nonzero show null_read string accept_text
           "Portkey API error:" configured_env None busy_twice
           (body_of no_choices) run (mkResponse 200) no_choices
           eq_refl Hcall Hout eq_refl).
  - discriminate.
  - reflexivity.
Defined.

Lemma request_returns_content_witness :
  exists evs,
    makePortkeyRequest nonzero show null_read configured_env None busy_twice
      (body_of (reply_with two_parts))
    = Some (evs, Value (Some "[1,2]")).
Proof.
  assert (Hcall : exists run,
            resilientFetch (portkey_options None) busy_twice = Some run /\
            outcome run = Fulfilled (mkResponse 200))
    by (eexists; split; reflexivity).
  destruct Hcall as (run & Hcall & Hout).
  exists (map SvNet (trace run) ++ [SvJson]).
  apply (request_returns_content Z nonzero show null_read configured_env None
           busy_twice (body_of (reply_with two_parts)) run (mkResponse 200)
           (reply_with two_parts) two_parts "[1,2]"
           eq_refl Hcall Hout eq_refl eq_refl).
  right. exists [JObject [("type", JString "text"); ("text", JString "[1,")];
                 JString "2]"], ["[1,"; "2]"].
  split; [reflexivity|]. split; [|reflexivity].
  constructor; [apply text_part_object; reflexivity|].
  constructor; [apply text_part_string | constructor].
Defined.
